(** * id-partition-simulator: the partition hash and the simulation engine

    A shallow embedding of [src/main.go]: the Postgres-compatible hash
    ([hash], [rotateLeft]) and the accounting loop of [ProcessCSV], with the
    properties of the specification stated and proved over them.

    Conventions of the embedding.
    - Go's fixed-width integers are [Z] with the wrap-around written out:
      [wrap32] for [uint32], [wrap64] for [int64], [wrapU64] for [uint] and
      [uint64]. [int] is 64 bits wide, as on amd64 and arm64.
    - A run-time panic (integer division by zero, index out of range, a
      negative length given to [make]) is [None].
    - The input is what [encoding/csv] hands to the loop once the header row
      is consumed: a list of records, each with its first two fields. Stream
      faults (which return early from [ProcessCSV]) and the progress display
      are outside the embedding; the tracker increments are kept as data of
      the per-record [Outcome]. *)

From Stdlib Require Import ZArith Lia String Ascii DecimalString DecimalPos.
From stdpp Require Import base option list gmap.

Local Open Scope Z_scope.

(** ** Fixed-width integers *)

Definition wrap32 (z : Z) : Z := z mod 2 ^ 32.
Definition wrapU64 (z : Z) : Z := z mod 2 ^ 64.
Definition wrap64 (z : Z) : Z := (z + 2 ^ 63) mod 2 ^ 64 - 2 ^ 63.

(** ** The partition hash (main.go, lines 247-275) *)

(** [func rotateLeft(x uint32, k uint) uint32 { return (x << k) | (x >> (32 - k)) }]
    The left shift is truncated to 32 bits; [32 - k] is computed in [uint]. *)
Definition rotateLeft (x k : Z) : Z :=
  Z.lor (wrap32 (Z.shiftl x k)) (Z.shiftr x (wrapU64 (32 - k))).

Definition hash (k : Z) : Z :=
  let a := wrap32 (0x9e3779b9 + 4 + 3923095) in
  let b := a in
  let c := a in
  let a := wrap32 (a + k) in
  let c := Z.lxor c b in
  let c := wrap32 (c - rotateLeft b 14) in
  let a := Z.lxor a c in
  let a := wrap32 (a - rotateLeft c 11) in
  let b := Z.lxor b a in
  let b := wrap32 (b - rotateLeft a 25) in
  let c := Z.lxor c b in
  let c := wrap32 (c - rotateLeft b 16) in
  let a := Z.lxor a c in
  let a := wrap32 (a - rotateLeft c 4) in
  let b := Z.lxor b a in
  let b := wrap32 (b - rotateLeft a 14) in
  let c := Z.lxor c b in
  let c := wrap32 (c - rotateLeft b 24) in
  c.

(** ** The hash as the specification words it (section 4.1)

    A second, independent formulation, written from the specification: the
    seed as a sum of three named constants, [rotl] as a circular rotation
    given bit by bit, and the avalanche as a table of seven steps
    [x ^= y; x -= rotl(y, r)] folded over the three words. *)

Module HashSpec.

Definition golden_ratio_constant : Z := 0x9e3779b9.
Definition fixed_length_constant : Z := 4.
Definition fixed_salt_constant : Z := 3923095.
Definition seed : Z :=
  wrap32 (golden_ratio_constant + fixed_length_constant + fixed_salt_constant).

(** The number whose bit [i] is [f i], for [i] below [n]. *)
Fixpoint bits_sum (f : Z -> bool) (n : nat) : Z :=
  match n with
  | O => 0
  | S n' => bits_sum f n' + (if f (Z.of_nat n') then 2 ^ Z.of_nat n' else 0)
  end.

(** 32-bit circular left rotation: bit [i] of the result is bit
    [(i - k) mod 32] of [x]; the bits pushed out at the top come back in
    at the bottom. *)
Definition rotl (x k : Z) : Z :=
  bits_sum (fun i => Z.testbit x ((i - k) mod 32)) 32.

Inductive word := A | B | C.

Record words := mkWords { wa : Z; wb : Z; wc : Z }.

Definition get (w : word) (s : words) : Z :=
  match w with A => wa s | B => wb s | C => wc s end.

Definition put (w : word) (v : Z) (s : words) : words :=
  match w with
  | A => mkWords v (wb s) (wc s)
  | B => mkWords (wa s) v (wc s)
  | C => mkWords (wa s) (wb s) v
  end.

(** One step of the sequence: [x ^= y; x -= rotl(y, r)], unsigned 32-bit. *)
Definition mix_step (s : words) (step : word * word * Z) : words :=
  let '(x, y, r) := step in
  let s := put x (Z.lxor (get x s) (get y s)) s in
  put x (wrap32 (get x s - rotl (get y s) r)) s.

Definition mixing_sequence : list (word * word * Z) :=
  [ (C, B, 14); (A, C, 11); (B, A, 25); (C, B, 16);
    (A, C, 4); (B, A, 14); (C, B, 24) ].

Definition hash (k : Z) : Z :=
  let s := mkWords seed seed seed in
  let s := put A (wrap32 (get A s + k)) s in
  wc (fold_left mix_step mixing_sequence s).

End HashSpec.

(** ** Decimal parsing: Go's [strconv.ParseInt(s, 10, bitSize)]

    [ProcessCSV] reads both fields with the standard library's [ParseInt] in
    base 10. The functions below follow [strconv/atoi.go] for that base: a
    byte that is not a decimal digit is a syntax error, and a value that does
    not fit is a range error. *)

Inductive NumError := ErrSyntax | ErrRange.

Definition byte_of (c : ascii) : Z := Z.of_N (N_of_ascii c).

Definition is_digit (c : ascii) : bool :=
  (48 <=? byte_of c) && (byte_of c <=? 57).

(** The loop of [ParseUint]: [n] is the value read so far, [cutoff] the
    least number whose tenfold exceeds [uint64], [maxVal] the largest value
    of the requested width. *)
Fixpoint ParseUint_loop (cutoff maxVal : Z) (s : string) (n : Z) : Z * option NumError :=
  match s with
  | EmptyString => (n, None)
  | String c rest =>
      if is_digit c then
        let d := byte_of c - 48 in
        if cutoff <=? n then (maxVal, Some ErrRange)
        else
          let n := wrapU64 (n * 10) in
          let n1 := wrapU64 (n + d) in
          if (n1 <? n) || (maxVal <? n1) then (maxVal, Some ErrRange)
          else ParseUint_loop cutoff maxVal rest n1
      else (0, Some ErrSyntax)
  end.

Definition ParseUint (s : string) (bitSize : Z) : Z * option NumError :=
  match s with
  | EmptyString => (0, Some ErrSyntax)
  | _ =>
      let cutoff := (2 ^ 64 - 1) / 10 + 1 in
      let maxVal := 2 ^ bitSize - 1 in
      ParseUint_loop cutoff maxVal s 0
  end.

Definition ParseInt (s : string) (bitSize : Z) : Z * option NumError :=
  match s with
  | EmptyString => (0, Some ErrSyntax)
  | String c rest =>
      let neg := Ascii.eqb c "-" in
      let s := if Ascii.eqb c "+" || neg then rest else s in
      match ParseUint s bitSize with
      | (_, Some ErrSyntax) => (0, Some ErrSyntax)
      | (un, _) =>
          let cutoff := 2 ^ (bitSize - 1) in
          if negb neg && (cutoff <=? un) then (cutoff - 1, Some ErrRange)
          else if neg && (cutoff <? un) then (- cutoff, Some ErrRange)
          else
            let n := wrap64 un in
            (if neg then wrap64 (- n) else n, None)
      end
  end.

(** ** The data of the engine (main.go, lines 16-37) *)

Module Partition.

Record t := mk { current : Z; max : Z; errored : bool }.

End Partition.

(** [file], [writer] and [fileSize] belong to the input stream and the
    progress display and are left out. *)
Module Config.
Record t := mk {
  partitions : Z;
  max : Z;
  min : Z;
  iterations : Z;
  outlier : Z
}.
End Config.

Module Result.
Record t := mk {
  totalDocuments : Z;
  totalIDs : Z;
  partitionCounts : list Z
}.
End Result.

(** The local variables of [ProcessCSV] that live across records and
    iterations (lines 105-136). A pinned message is kept as the three values
    its text is formatted from: document id, count and partition index. *)
Record Locals := mkLocals {
  partitionList : list Partition.t;
  result : Result.t;
  erroredPartitions : Z;
  pinnedMessages : list (Z * Z * Z);
  loggedOutliers : gmap Z bool
}.

(** What the loop body did with one record. The arguments are the document
    id, the count and the partition index; the fourth one is the amount given
    to the partition's progress tracker ([Increment], resp.
    [IncrementWithError]). *)
Inductive Outcome :=
  | ParseError
  | OutlierSkipped (documentID count partitionIndex : Z)
  | Incremented (documentID count partitionIndex increment : Z)
  | Exceeded (documentID count partitionIndex clamp : Z)
  | Untouched (documentID count partitionIndex : Z).

Inductive Control := Continue | Break.

(** [s[i] = v] on a slice: a panic when [i] is out of range. *)
Definition store {A} (s : list A) (i : Z) (v : A) : option (list A) :=
  if (0 <=? i) && (i <? Z.of_nat (length s)) then Some (<[Z.to_nat i := v]> s)
  else None.

(** ** The engine (main.go, lines 104-245) *)

(** Lines 105-108 and 127-136. [make] panics on a negative length. *)
Definition initial (config : Config.t) : option Locals :=
  if Config.partitions config <? 0 then None
  else
    let n := Z.to_nat (Config.partitions config) in
    Some {|
      partitionList :=
        replicate n (Partition.mk (Config.min config) (Config.max config) false);
      result := Result.mk 0 0 (replicate n 0);
      erroredPartitions := 0;
      pinnedMessages := [];
      loggedOutliers := ∅
    |}.

(** Lines 172-220: the body of the inner loop for one record.
    [erroredPartitions] never exceeds the length of [partitionList], so its
    increment is written without wrap-around. *)
Definition loop_body (config : Config.t) (st : Locals) (record : string * string)
  : option (Locals * Outcome * Control) :=
  match ParseInt (fst record) 32 with
  | (_, Some _) => Some (st, ParseError, Continue)
  | (i, None) =>
      let documentID := wrap32 i in
      match ParseInt (snd record) 64 with
      | (_, Some _) => Some (st, ParseError, Continue)
      | (count, None) =>
          let totalDocuments := wrap64 (Result.totalDocuments (result st) + 1) in
          let totalIDs := wrap64 (Result.totalIDs (result st) + count) in
          let counts := Result.partitionCounts (result st) in
          let divisor := wrap32 (Config.partitions config) in
          if divisor =? 0 then None
          else
            let partitionIndex := hash documentID mod divisor in
            match partitionList st !! Z.to_nat partitionIndex with
            | None => None
            | Some partition =>
                if (Config.outlier config <? count)
                   && negb (default false (loggedOutliers st !! documentID))
                then
                  Some (mkLocals (partitionList st)
                          (Result.mk totalDocuments totalIDs counts)
                          (erroredPartitions st)
                          (pinnedMessages st ++ [(documentID, count, partitionIndex)])
                          (<[documentID := true]> (loggedOutliers st)),
                        OutlierSkipped documentID count partitionIndex,
                        Continue)
                else if negb (Partition.errored partition) then
                  let newValue := wrap64 (Partition.current partition + count) in
                  if Partition.max partition <? newValue then
                    let clamp :=
                      wrap64 (Partition.max partition - Partition.current partition) in
                    let erroredPartitions := erroredPartitions st + 1 in
                    Some (mkLocals
                            (<[Z.to_nat partitionIndex :=
                                 Partition.mk (Partition.current partition)
                                   (Partition.max partition) true]> (partitionList st))
                            (Result.mk totalDocuments totalIDs counts)
                            erroredPartitions
                            (pinnedMessages st)
                            (loggedOutliers st),
                          Exceeded documentID count partitionIndex clamp,
                          if erroredPartitions =? Config.partitions config
                          then Break else Continue)
                  else
                    let increment := wrap64 (newValue - Partition.current partition) in
                    match store counts partitionIndex newValue with
                    | None => None
                    | Some counts =>
                        Some (mkLocals
                                (<[Z.to_nat partitionIndex :=
                                     Partition.mk newValue (Partition.max partition)
                                       false]> (partitionList st))
                                (Result.mk totalDocuments totalIDs counts)
                                (erroredPartitions st)
                                (pinnedMessages st)
                                (loggedOutliers st),
                              Incremented documentID count partitionIndex increment,
                              Continue)
                    end
                else
                  Some (mkLocals (partitionList st)
                          (Result.mk totalDocuments totalIDs counts)
                          (erroredPartitions st)
                          (pinnedMessages st)
                          (loggedOutliers st),
                        Untouched documentID count partitionIndex,
                        Continue)
            end
      end
  end.

(** Lines 157-221: one scan of the records, left at a [Break]. The list of
    outcomes is the trace of the scan. *)
Fixpoint scan (config : Config.t) (st : Locals) (records : list (string * string))
  : option (Locals * list Outcome) :=
  match records with
  | [] => Some (st, [])
  | record :: rest =>
      match loop_body config st record with
      | None => None
      | Some (st, outcome, Break) => Some (st, [outcome])
      | Some (st, outcome, Continue) =>
          match scan config st rest with
          | None => None
          | Some (st, trace) => Some (st, outcome :: trace)
          end
      end
  end.

(** Lines 138-222: the scan repeated [n] times, the file read again from
    its start each time; the locals carry over. [run] below takes [n] from
    [config.iterations], none when it is zero or negative. *)
Fixpoint iterate (config : Config.t) (n : nat) (st : Locals)
    (records : list (string * string)) : option (Locals * list Outcome) :=
  match n with
  | O => Some (st, [])
  | S n =>
      match scan config st records with
      | None => None
      | Some (st, trace) =>
          match iterate config n st records with
          | None => None
          | Some (st, trace') => Some (st, trace ++ trace')
          end
      end
  end.

(** The verb [%d] of [fmt]: an integer in decimal. *)
Definition itoa (n : Z) : string := NilZero.string_of_int (Z.to_int n).

(** Lines 237-244: the error returned with the result. *)
Definition classify (config : Config.t) (st : Locals) : option string :=
  if erroredPartitions st =? Config.partitions config then
    Some "all partitions have exceeded their maximum value"%string
  else if erroredPartitions st =? 1 then
    Some (String.append (itoa (erroredPartitions st))
            " partition exceeded its maximum value")
  else if 0 <? erroredPartitions st then
    Some (String.append (itoa (erroredPartitions st))
            " partitions exceeded their maximum value")
  else None.

(** The locals and the trace when the outer loop is left. *)
Definition run (config : Config.t) (records : list (string * string))
  : option (Locals * list Outcome) :=
  match initial config with
  | None => None
  | Some st => iterate config (Z.to_nat (Config.iterations config)) st records
  end.

Definition ProcessCSV (config : Config.t) (records : list (string * string))
  : option (Result.t * option string) :=
  match run config records with
  | None => None
  | Some (st, _) => Some (result st, classify config st)
  end.

(** ** Vocabulary of the properties *)

(** The states a run passes through: the loop body applied to one record
    after the other. Every state of [scan] and [iterate] is of this form
    ([scan_steps], [iterate_steps] below). *)
Fixpoint steps (config : Config.t) (st : Locals) (records : list (string * string))
  : option Locals :=
  match records with
  | [] => Some st
  | record :: rest =>
      match loop_body config st record with
      | None => None
      | Some (st, _, _) => steps config st rest
      end
  end.

(** The rest of a run from a point in the middle of it: the records left in
    the current scan, then the iterations left. *)
Definition resume (config : Config.t) (st : Locals) (left : list (string * string))
    (n : nat) (records : list (string * string)) : option (Locals * list Outcome) :=
  match scan config st left with
  | None => None
  | Some (st, trace) =>
      match iterate config n st records with
      | None => None
      | Some (st, trace') => Some (st, trace ++ trace')
      end
  end.

Definition sumZ (l : list Z) : Z := foldr Z.add 0 l.

(** The weight a record brought into a partition's [current]. *)
Definition admitted (o : Outcome) : Z :=
  match o with Incremented _ count _ _ => count | _ => 0 end.

(** The weight of a parsed record that entered no partition: the record that
    would have pushed its partition past [max], and every record aimed at a
    partition already errored. *)
Definition dropped (o : Outcome) : Z :=
  match o with
  | Exceeded _ count _ _ | Untouched _ count _ => count
  | _ => 0
  end.

(** The weight of a record skipped as an outlier. *)
Definition filtered (o : Outcome) : Z :=
  match o with OutlierSkipped _ count _ => count | _ => 0 end.

Definition total (f : Outcome -> Z) (trace : list Outcome) : Z :=
  sumZ (map f trace).

(** The number of partitions whose [errored] flag is set. *)
Definition errored_count (l : list Partition.t) : Z :=
  sumZ (map (fun p => Z.b2z (Partition.errored p)) l).

(** The value of a string of decimal digits. *)
Definition decimal_value (s : string) : Z :=
  fold_left (fun n c => n * 10 + (byte_of c - 48)) (list_ascii_of_string s) 0.

Definition all_digits (s : string) : bool :=
  forallb is_digit (list_ascii_of_string s).

(** Congruence of two integers as [int64] values. *)
Definition eq64 (x y : Z) : Prop := x mod 2 ^ 64 = y mod 2 ^ 64.

(** The shape the locals keep throughout a run: one partition and one count
    per configured partition, the counter of errored partitions in step with
    the flags, and every ceiling the configured one. *)
Definition consistent (config : Config.t) (st : Locals) : Prop :=
  length (partitionList st) = Z.to_nat (Config.partitions config) /\
  length (Result.partitionCounts (result st)) = Z.to_nat (Config.partitions config) /\
  erroredPartitions st = errored_count (partitionList st) /\
  Forall (fun p => Partition.max p = Config.max config) (partitionList st).

(** Every partition that is not errored is at or below its ceiling. *)
Definition within_capacity (st : Locals) : Prop :=
  forall i p, partitionList st !! i = Some p ->
    Partition.errored p = false -> Partition.current p <= Partition.max p.

(** The document id and the partition index of a parsed record. *)
Definition key_of (o : Outcome) : option Z :=
  match o with
  | ParseError => None
  | OutlierSkipped k _ _ | Incremented k _ _ _ | Exceeded k _ _ _ | Untouched k _ _ =>
      Some k
  end.

Definition index_of (o : Outcome) : option Z :=
  match o with
  | ParseError => None
  | OutlierSkipped _ _ i | Incremented _ _ i _ | Exceeded _ _ i _ | Untouched _ _ i =>
      Some i
  end.

(** [partitionCounts] holds the [current] of every partition. *)
Definition mirrored (st : Locals) : Prop :=
  Result.partitionCounts (result st) = map Partition.current (partitionList st).

(** The classification of the run as section 4.2 of the specification lists
    it, case after case: no errored partition, all of them, one, any other
    number. *)
Module FinalizeSpec.

Definition outcome (partitionCount n : Z) : option string :=
  if n =? 0 then None
  else if n =? partitionCount then
    Some "all partitions have exceeded their maximum value"%string
  else if n =? 1 then
    Some "1 partition exceeded its maximum value"%string
  else
    Some (String.append (itoa n) " partitions exceeded their maximum value").

End FinalizeSpec.

(** What is observed of a run: the result, the pinned outlier notices, the
    final [current] of every partition, and the trace. *)
Definition observe (r : Locals * list Outcome)
  : Result.t * list (Z * Z * Z) * list Z * list Outcome :=
  (result (fst r), pinnedMessages (fst r),
   map Partition.current (partitionList (fst r)), snd r).

(** The capacity invariant without any condition on the configuration:
    at every state a run passes through, every partition that is not errored
    is at or below its ceiling. *)
Definition capacity_invariant_unconditional : Prop :=
  forall config records st0 st,
    initial config = Some st0 -> steps config st0 records = Some st ->
    within_capacity st.


(** The balance of section 8 as an equation between integers, on the runs
    of one iteration in which every record parses (no parse-failed weight to
    subtract). *)
Definition balance_unconditional : Prop :=
  forall config records st trace,
    Config.iterations config = 1 ->
    run config records = Some (st, trace) ->
    Forall (fun o => o <> ParseError) trace ->
    sumZ (Result.partitionCounts (result st)) + total dropped trace =
      Result.totalIDs (result st) - total filtered trace.

(** ** Vocabulary of the further properties *)

(** A record both of whose fields parse. *)
Definition parses (record : string * string) : bool :=
  match ParseInt (fst record) 32, ParseInt (snd record) 64 with
  | (_, None), (_, None) => true
  | _, _ => false
  end.

(** The weight of a record, when both fields parse. *)
Definition weight_of_record (record : string * string) : Z :=
  match ParseInt (fst record) 32, ParseInt (snd record) 64 with
  | (_, None), (count, None) => count
  | _, _ => 0
  end.

(** The weight of a parsed record, whatever became of it, and 1 for each. *)
Definition weight (o : Outcome) : Z := admitted o + dropped o + filtered o.

Definition parsed (o : Outcome) : Z :=
  match o with ParseError => 0 | _ => 1 end.

(** No partition is above its ceiling, errored or not. *)
Definition capped (st : Locals) : Prop :=
  forall i p, partitionList st !! i = Some p ->
    Partition.current p <= Partition.max p.

(** Each count is the [current] of its partition, or still the 0 it was
    allocated with while the partition is at the floor. *)
Definition counts_follow (config : Config.t) (st : Locals) : Prop :=
  forall i c p,
    Result.partitionCounts (result st) !! i = Some c ->
    partitionList st !! i = Some p ->
    c = Partition.current p \/ (c = 0 /\ Partition.current p = Config.min config).

Definition all_errored (st : Locals) : Prop :=
  Forall (fun p => Partition.errored p = true) (partitionList st).

(** Both totals are [int64] values. *)
Definition totals_in_range (st : Locals) : Prop :=
  - 2 ^ 63 <= Result.totalDocuments (result st) < 2 ^ 63 /\
  - 2 ^ 63 <= Result.totalIDs (result st) < 2 ^ 63.

(** The notice a skipped outlier leaves, and the notices of a trace. *)
Definition notice_of (o : Outcome) : option (Z * Z * Z) :=
  match o with OutlierSkipped k count i => Some (k, count, i) | _ => None end.

Definition notices (trace : list Outcome) : list (Z * Z * Z) := omap notice_of trace.

Definition notice_key (m : Z * Z * Z) : Z := fst (fst m).

Definition is_dropped (o : Outcome) : bool :=
  match o with Exceeded _ _ _ _ | Untouched _ _ _ => true | _ => false end.

Definition is_filtered (o : Outcome) : bool :=
  match o with OutlierSkipped _ _ _ => true | _ => false end.

(** The pinned notices and the registry of logged outliers go together:
    one notice per registered key, each for a weight above the threshold and
    with the partition the key hashes to. *)
Definition registry (config : Config.t) (st : Locals) : Prop :=
  NoDup (map notice_key (pinnedMessages st)) /\
  (forall k, default false (loggedOutliers st !! k) = true <->
             k ∈ map notice_key (pinnedMessages st)) /\
  Forall (fun m => Config.outlier config < snd (fst m) /\
                   snd m = hash (notice_key m) mod wrap32 (Config.partitions config))
         (pinnedMessages st).

(** The outcomes of the branch that updates a partition. *)
Definition touches (o : Outcome) : bool :=
  match o with Incremented _ _ _ _ | Exceeded _ _ _ _ => true | _ => false end.

(** The number of records of a file that parse, and the sum of their
    weights. *)
Definition records_parsed (records : list (string * string)) : Z :=
  sumZ (map (fun r => Z.b2z (parses r)) records).

Definition records_weight (records : list (string * string)) : Z :=
  sumZ (map weight_of_record records).

(** Signed decimal text and its value: an optional sign, then one digit or
    more. *)
Definition signed_decimal (s : string) : option Z :=
  match s with
  | EmptyString => None
  | String c rest =>
      let neg := Ascii.eqb c "-" in
      let body := if Ascii.eqb c "+" || neg then rest else s in
      match body with
      | EmptyString => None
      | _ =>
          if all_digits body
          then Some (if neg then - decimal_value body else decimal_value body)
          else None
      end
  end.

(** The key and the weight of a record whose fields are signed decimal text
    within 32, resp. 64, bits. *)
Definition accepted (record : string * string) : option (Z * Z) :=
  match signed_decimal (fst record), signed_decimal (snd record) with
  | Some k, Some w =>
      if (- 2 ^ 31 <=? k) && (k <? 2 ^ 31) && (- 2 ^ 63 <=? w) && (w <? 2 ^ 63)
      then Some (k, w) else None
  | _, _ => None
  end.

(** ** The test harness (main_test.go) *)

Module Harness.

(** [Config] with all its fields, in the order of main.go. The file and the
    writer are handles; [None] is [nil]. *)
Record Config := mkConfig {
  partitions : Z;
  max : Z;
  min : Z;
  file : option nat;
  writer : option nat;
  fileSize : Z;
  iterations : Z;
  outlier : Z
}.

Definition set_iterations (v : Z) (c : Config) : Config :=
  mkConfig (partitions c) (max c) (min c) (file c) (writer c) (fileSize c) v (outlier c).
Definition set_partitions (v : Z) (c : Config) : Config :=
  mkConfig v (max c) (min c) (file c) (writer c) (fileSize c) (iterations c) (outlier c).
Definition set_max (v : Z) (c : Config) : Config :=
  mkConfig (partitions c) v (min c) (file c) (writer c) (fileSize c) (iterations c) (outlier c).
Definition set_min (v : Z) (c : Config) : Config :=
  mkConfig (partitions c) (max c) v (file c) (writer c) (fileSize c) (iterations c) (outlier c).
Definition set_outlier (v : Z) (c : Config) : Config :=
  mkConfig (partitions c) (max c) (min c) (file c) (writer c) (fileSize c) (iterations c) v.
Definition set_file (v : option nat) (c : Config) : Config :=
  mkConfig (partitions c) (max c) (min c) v (writer c) (fileSize c) (iterations c) (outlier c).
Definition set_writer (v : option nat) (c : Config) : Config :=
  mkConfig (partitions c) (max c) (min c) (file c) v (fileSize c) (iterations c) (outlier c).
Definition set_fileSize (v : Z) (c : Config) : Config :=
  mkConfig (partitions c) (max c) (min c) (file c) (writer c) v (iterations c) (outlier c).

(** main_test.go, lines 145-174: every field of [userConfig] that is not the
    zero value of its type replaces the default. *)
Definition mergeConfig (defaultConfig userConfig : Config) : Config :=
  let mergedConfig := defaultConfig in
  let mergedConfig :=
    if iterations userConfig =? 0 then mergedConfig
    else set_iterations (iterations userConfig) mergedConfig in
  let mergedConfig :=
    if partitions userConfig =? 0 then mergedConfig
    else set_partitions (partitions userConfig) mergedConfig in
  let mergedConfig :=
    if max userConfig =? 0 then mergedConfig
    else set_max (max userConfig) mergedConfig in
  let mergedConfig :=
    if min userConfig =? 0 then mergedConfig
    else set_min (min userConfig) mergedConfig in
  let mergedConfig :=
    if outlier userConfig =? 0 then mergedConfig
    else set_outlier (outlier userConfig) mergedConfig in
  let mergedConfig :=
    match file userConfig with
    | None => mergedConfig
    | Some f => set_file (Some f) mergedConfig
    end in
  let mergedConfig :=
    match writer userConfig with
    | None => mergedConfig
    | Some w => set_writer (Some w) mergedConfig
    end in
  let mergedConfig :=
    if fileSize userConfig =? 0 then mergedConfig
    else set_fileSize (fileSize userConfig) mergedConfig in
  mergedConfig.

(** The zero value of [Config]: what [Config{}] is. *)
Definition zero : Config := mkConfig 0 0 0 None None 0 0 0.

(** main_test.go, lines 115-124: the defaults of [runProcessCSV]. *)
Definition defaultConfig (f w : nat) (size : Z) : Config :=
  mkConfig 1 (2 ^ 63 - 1) 0 (Some f) (Some w) size 1 (2 ^ 63 - 1).

(** The part of a configuration the engine reads. *)
Definition core (c : Config) : Config.t :=
  Config.mk (partitions c) (max c) (min c) (iterations c) (outlier c).

(** main_test.go, lines 61-77: the records that the CSV reader finds, after
    the header, in the file [createTestCSV] writes: documents 1 to
    [numDocuments], each with the same count, both printed with [%d]. *)
Fixpoint documents (remaining : nat) (i count : Z) : list (string * string) :=
  match remaining with
  | O => []
  | S remaining => (itoa i, itoa count) :: documents remaining (i + 1) count
  end.

Definition createTestCSV (numDocuments count : Z) : list (string * string) :=
  documents (Z.to_nat numDocuments) 1 count.

End Harness.

(** The [current] of every partition is an [int64]. *)
Definition currents_in_range (st : Locals) : Prop :=
  forall i p, partitionList st !! i = Some p ->
    - 2 ^ 63 <= Partition.current p < 2 ^ 63.

(** The amount given to [Increment] is the weight of the record. *)
Definition increment_is_weight (o : Outcome) : Prop :=
  match o with
  | Incremented _ count _ increment => increment = count
  | _ => True
  end.

(** * Properties *)

(** ** Machine arithmetic *)

Lemma wrap32_range z : 0 <= wrap32 z < 2 ^ 32.
Proof. unfold wrap32. apply Z.mod_pos_bound. lia. Qed.

Lemma wrap64_range z : - 2 ^ 63 <= wrap64 z < 2 ^ 63.
Proof.
  unfold wrap64. pose proof (Z.mod_pos_bound (z + 2 ^ 63) (2 ^ 64)). lia.
Qed.

Lemma wrap64_small z : - 2 ^ 63 <= z < 2 ^ 63 -> wrap64 z = z.
Proof. intros H. unfold wrap64. rewrite Z.mod_small; lia. Qed.

Lemma high_bits_clear x n :
  0 <= n -> 0 <= x < 2 ^ n -> forall i, n <= i -> Z.testbit x i = false.
Proof.
  intros Hn Hx i Hi.
  replace x with (x mod 2 ^ n) by (apply Z.mod_small; lia).
  apply Z.mod_pow2_bits_high. lia.
Qed.

Lemma below_pow2_of_bits x n :
  0 <= n -> 0 <= x -> (forall i, n <= i -> Z.testbit x i = false) -> x < 2 ^ n.
Proof.
  intros Hn Hx Hbits.
  assert (E : x mod 2 ^ n = x).
  { apply Z.bits_inj'. intros i Hi.
    destruct (Z.lt_ge_cases i n) as [Hlt | Hge].
    - apply Z.mod_pow2_bits_low. lia.
    - rewrite Z.mod_pow2_bits_high by lia. symmetry. auto. }
  rewrite <- E. apply Z.mod_pos_bound. lia.
Qed.

Lemma lxor_range32 a b :
  0 <= a < 2 ^ 32 -> 0 <= b < 2 ^ 32 -> 0 <= Z.lxor a b < 2 ^ 32.
Proof.
  intros Ha Hb.
  assert (0 <= Z.lxor a b) by (apply Z.lxor_nonneg; lia).
  split; [assumption|].
  apply below_pow2_of_bits; [lia | assumption |].
  intros i Hi. rewrite Z.lxor_spec.
  rewrite (high_bits_clear a 32), (high_bits_clear b 32); auto; lia.
Qed.

Lemma lor_range32 a b :
  0 <= a < 2 ^ 32 -> 0 <= b < 2 ^ 32 -> 0 <= Z.lor a b < 2 ^ 32.
Proof.
  intros Ha Hb.
  assert (0 <= Z.lor a b) by (apply Z.lor_nonneg; lia).
  split; [assumption|].
  apply below_pow2_of_bits; [lia | assumption |].
  intros i Hi. rewrite Z.lor_spec.
  rewrite (high_bits_clear a 32), (high_bits_clear b 32); auto; lia.
Qed.

(** ** rotateLeft is the circular rotation *)

Lemma rotateLeft_range x k :
  0 <= x < 2 ^ 32 -> 0 <= k <= 32 -> 0 <= rotateLeft x k < 2 ^ 32.
Proof.
  intros Hx Hk. unfold rotateLeft. apply lor_range32.
  - apply wrap32_range.
  - unfold wrapU64. rewrite (Z.mod_small (32 - k)) by lia.
    rewrite Z.shiftr_div_pow2 by lia.
    assert (0 < 2 ^ (32 - k)) by (apply Z.pow_pos_nonneg; lia).
    split.
    + apply Z.div_pos; lia.
    + apply Z.le_lt_trans with x; [|lia].
      apply Z.div_le_upper_bound; nia.
Qed.

Lemma rotateLeft_testbit x k i :
  0 <= x < 2 ^ 32 -> 0 <= k <= 32 -> 0 <= i < 32 ->
  Z.testbit (rotateLeft x k) i = Z.testbit x ((i - k) mod 32).
Proof.
  intros Hx Hk Hi. unfold rotateLeft, wrap32, wrapU64.
  rewrite (Z.mod_small (32 - k)) by lia.
  rewrite Z.lor_spec, Z.mod_pow2_bits_low by lia.
  rewrite Z.shiftl_spec, Z.shiftr_spec by lia.
  destruct (Z.lt_ge_cases i k) as [Hlt | Hge].
  - rewrite (Z.testbit_neg_r x (i - k)) by lia. simpl.
    f_equal. symmetry.
    replace (i - k) with (i + (32 - k) + (-1) * 32) by lia.
    rewrite Z.mod_add by lia. apply Z.mod_small. lia.
  - rewrite (high_bits_clear x 32 ltac:(lia) Hx (i + (32 - k))) by lia.
    rewrite orb_false_r. f_equal. symmetry. apply Z.mod_small. lia.
Qed.

Lemma bits_sum_ext f g n :
  (forall i, 0 <= i < Z.of_nat n -> f i = g i) ->
  HashSpec.bits_sum f n = HashSpec.bits_sum g n.
Proof.
  induction n as [|n IH]; intros Hfg; [reflexivity|].
  cbn [HashSpec.bits_sum]. rewrite IH, (Hfg (Z.of_nat n)) by (intros; try apply Hfg; lia).
  reflexivity.
Qed.

Lemma bits_sum_testbit n x :
  0 <= x < 2 ^ Z.of_nat n -> HashSpec.bits_sum (Z.testbit x) n = x.
Proof.
  revert x. induction n as [|n IH]; intros x Hx.
  - cbn in *. lia.
  - cbn [HashSpec.bits_sum].
    assert (Hp : 0 < 2 ^ Z.of_nat n) by (apply Z.pow_pos_nonneg; lia).
    rewrite Nat2Z.inj_succ, Z.pow_succ_r in Hx by lia.
    rewrite (bits_sum_ext _ (Z.testbit (x mod 2 ^ Z.of_nat n))).
    2:{ intros i Hi. symmetry. apply Z.mod_pow2_bits_low. lia. }
    rewrite IH by (apply Z.mod_pos_bound; lia).
    pose proof (Z.testbit_spec' x (Z.of_nat n) ltac:(lia)) as Hb.
    pose proof (Z.div_mod x (2 ^ Z.of_nat n) ltac:(lia)) as Hdm.
    assert (Hq : 0 <= x / 2 ^ Z.of_nat n < 2).
    { split; [apply Z.div_pos; lia | apply Z.div_lt_upper_bound; lia]. }
    rewrite (Z.mod_small _ 2) in Hb by lia.
    destruct (Z.testbit x (Z.of_nat n)); cbn in Hb; nia.
Qed.

Lemma rotateLeft_rotl x k :
  0 <= x < 2 ^ 32 -> 0 <= k <= 32 -> rotateLeft x k = HashSpec.rotl x k.
Proof.
  intros Hx Hk. unfold HashSpec.rotl.
  rewrite <- (bits_sum_testbit 32 (rotateLeft x k)).
  - apply bits_sum_ext. intros i Hi. apply rotateLeft_testbit; lia.
  - change (2 ^ Z.of_nat 32) with (2 ^ 32). apply rotateLeft_range; lia.
Qed.

(** ** C1: the hash *)

Ltac word32 :=
  repeat first
    [ apply wrap32_range
    | apply lxor_range32
    | lia ].

(** C1. For every key [k], [hash k] -- the code -- is the value the
    specification describes: the three words set to the seed (golden-ratio
    constant + length constant + salt constant), [k] added to [a], the seven
    steps [x ^= y; x -= rotl(y, r)] in the stated order with the stated
    rotation amounts, and [c] returned; [rotl] is the 32-bit circular left
    rotation and the arithmetic is unsigned 32-bit with wrap-around. *)
Theorem hash_matches_specification (k : Z) : hash k = HashSpec.hash k.
Proof.
  unfold HashSpec.hash, HashSpec.mixing_sequence. cbn [fold_left].
  unfold HashSpec.mix_step.
  cbn [HashSpec.put HashSpec.get HashSpec.wa HashSpec.wb HashSpec.wc].
  unfold hash. cbv zeta.
  change (wrap32 (0x9e3779b9 + 4 + 3923095)) with HashSpec.seed.
  assert (Hseed : 0 <= HashSpec.seed < 2 ^ 32) by apply wrap32_range.
  rewrite <- !rotateLeft_rotl by word32.
  reflexivity.
Qed.

(** The values the reference implementation (Postgres [hash_bytes_uint32])
    gives for the keys listed in main_test.go, read as unsigned words. *)
Example hash_reference_values :
  hash 1 = wrap32 (-1905060026) /\ hash 42 = 1509752520 /\
  hash 123456789 = 524883300 /\ hash 987654321 = wrap32 (-522295545) /\
  hash 2147483647 = wrap32 (-96758253) /\ hash 272321 = 235424784.
Proof. vm_compute. repeat split. Qed.

(** ** Decimal parsing *)

Lemma is_digit_value c : is_digit c = true -> 0 <= byte_of c - 48 <= 9.
Proof. unfold is_digit. intros H. apply andb_true_iff in H. lia. Qed.

Lemma digits_grow l n :
  forallb is_digit l = true -> 0 <= n ->
  n <= fold_left (fun n c => n * 10 + (byte_of c - 48)) l n.
Proof.
  revert n. induction l as [|c l IH]; intros n Hl Hn; cbn in *; [lia|].
  apply andb_true_iff in Hl as [Hc Hl]. apply is_digit_value in Hc.
  specialize (IH (n * 10 + (byte_of c - 48)) Hl). lia.
Qed.

Lemma ParseUint_loop_digits maxVal s n :
  all_digits s = true -> 0 <= n ->
  fold_left (fun n c => n * 10 + (byte_of c - 48)) (list_ascii_of_string s) n <= maxVal ->
  maxVal < 2 ^ 64 ->
  ParseUint_loop ((2 ^ 64 - 1) / 10 + 1) maxVal s n =
    (fold_left (fun n c => n * 10 + (byte_of c - 48)) (list_ascii_of_string s) n, None).
Proof.
  unfold all_digits. revert n.
  induction s as [|c s IH]; intros n Hs Hn Hv Hmax; cbn in *; [reflexivity|].
  apply andb_true_iff in Hs as [Hc Hs]. rewrite Hc.
  pose proof (is_digit_value c Hc) as Hd.
  pose proof (digits_grow (list_ascii_of_string s) (n * 10 + (byte_of c - 48)) Hs
                ltac:(lia)) as Hgrow.
  change ((2 ^ 64 - 1) / 10 + 1) with 1844674407370955162 in *.
  destruct (1844674407370955162 <=? n) eqn:Hcut; [lia|].
  unfold wrapU64. rewrite (Z.mod_small (n * 10)) by lia.
  rewrite (Z.mod_small (n * 10 + _)) by lia.
  destruct (n * 10 + (byte_of c - 48) <? n * 10) eqn:E1; [lia|].
  destruct (maxVal <? n * 10 + (byte_of c - 48)) eqn:E2; [lia|].
  cbn. apply IH; auto; lia.
Qed.

(** A minus sign followed by digits whose value is at most [2^31] parses, at
    width 32, to the negated value. *)
Lemma ParseInt_negative digits :
  all_digits digits = true -> 1 <= decimal_value digits <= 2 ^ 31 ->
  ParseInt (String "-" digits) 32 = (- decimal_value digits, None).
Proof.
  intros Hd Hv. unfold ParseInt. cbn [Ascii.eqb Bool.eqb orb negb andb].
  assert (Hne : digits <> EmptyString).
  { intros ->. cbn in Hv. lia. }
  unfold ParseUint. destruct digits as [|c rest]; [congruence|].
  rewrite ParseUint_loop_digits;
    [ | assumption | lia | fold (decimal_value (String c rest)); lia | lia ].
  fold (decimal_value (String c rest)).
  destruct (2 ^ (32 - 1) <? decimal_value (String c rest)) eqn:E; [lia|].
  rewrite (wrap64_small (decimal_value _)) by lia.
  rewrite wrap64_small by lia. reflexivity.
Qed.

(** ** Sums over slices *)

Lemma sumZ_insert (l : list Z) i x y :
  l !! i = Some x -> sumZ (<[i := y]> l) = sumZ l - x + y.
Proof.
  unfold sumZ. revert i.
  induction l as [|a l IH]; intros [|i] H; simpl in *; try discriminate.
  - injection H as ->. lia.
  - rewrite (IH i H). lia.
Qed.

Lemma sumZ_map_insert {A} (f : A -> Z) (l : list A) i x y :
  l !! i = Some x -> sumZ (map f (<[i := y]> l)) = sumZ (map f l) - f x + f y.
Proof.
  intros H. change (map f) with (fmap (M:=list) f).
  rewrite list_fmap_insert. apply sumZ_insert.
  rewrite list_lookup_fmap, H. reflexivity.
Qed.

Lemma sumZ_replicate n x : sumZ (replicate n x) = Z.of_nat n * x.
Proof. unfold sumZ. induction n as [|n IH]; cbn [replicate foldr]; lia. Qed.

Lemma sumZ_app l1 l2 : sumZ (l1 ++ l2) = sumZ l1 + sumZ l2.
Proof. unfold sumZ. induction l1 as [|a l1 IH]; cbn in *; lia. Qed.

Lemma total_app f t1 t2 : total f (t1 ++ t2) = total f t1 + total f t2.
Proof. unfold total. rewrite map_app. apply sumZ_app. Qed.

Lemma errored_count_bounds l : 0 <= errored_count l <= Z.of_nat (length l).
Proof.
  unfold errored_count, sumZ. induction l as [|p l IH]; [cbn; lia|].
  cbn [map foldr length]. destruct (Partition.errored p); cbn [Z.b2z]; lia.
Qed.

(** ** The loop body, case by case *)

Lemma Some_triple_inv {A B C} (a a' : A) (b b' : B) (c c' : C) :
  Some (a, b, c) = Some (a', b', c') -> a = a' /\ b = b' /\ c = c'.
Proof. intros H. injection H. auto. Qed.

Lemma store_Some {A} (s s' : list A) i v :
  store s i v = Some s' ->
  0 <= i < Z.of_nat (length s) /\ s' = <[Z.to_nat i := v]> s.
Proof.
  unfold store. destruct ((0 <=? i) && (i <? Z.of_nat (length s))) eqn:E; [|discriminate].
  apply andb_true_iff in E. intros [= <-]. split; [lia | reflexivity].
Qed.

Ltac tidy_tests :=
  repeat match goal with
         | H : negb _ = true |- _ => apply negb_true_iff in H
         | H : negb _ = false |- _ => apply negb_false_iff in H
         | H : (_ <? _) = true |- _ => apply Z.ltb_lt in H
         | H : (_ <? _) = false |- _ => apply Z.ltb_ge in H
         | H : (_ =? _) = true |- _ => apply Z.eqb_eq in H
         | H : (_ =? _) = false |- _ => apply Z.eqb_neq in H
         end.

(** Splits a hypothesis [loop_body config st record = Some (st', o, c)] into
    the paths through the body: two parse errors, the outlier, the ceiling
    exceeded (leaving the scan or not), the admitted record, and the record
    aimed at an errored partition. *)
Ltac loop_body_cases H :=
  unfold loop_body in H; cbv zeta in H;
  repeat (match type of H with
          | context [match ?x with _ => _ end] => destruct x eqn:?
          end; cbv beta iota in H);
  try discriminate H;
  apply Some_triple_inv in H; destruct H as (<- & <- & <-);
  try match goal with
      | E : store _ _ _ = Some _ |- _ => apply store_Some in E; destruct E as [? ->]
      end;
  tidy_tests.

Lemma errored_count_insert l i p q :
  l !! i = Some p ->
  errored_count (<[i := q]> l) =
    errored_count l - Z.b2z (Partition.errored p) + Z.b2z (Partition.errored q).
Proof.
  intros H. unfold errored_count.
  apply (sumZ_map_insert (fun p => Z.b2z (Partition.errored p)) l i p q H).
Qed.

Lemma loop_body_consistent config st record st' o c :
  consistent config st -> loop_body config st record = Some (st', o, c) ->
  consistent config st'.
Proof.
  intros (Hlen & Hcnt & Herr & Hmax) H. loop_body_cases H;
    unfold consistent; cbn [partitionList result erroredPartitions Result.partitionCounts];
    rewrite ?length_insert;
    (split; [assumption | split; [assumption | split; [| ]]]); try assumption;
    try (apply Forall_insert; [assumption|]; cbn [Partition.max];
         eapply (Forall_lookup_1 _ _ _ _ Hmax); eassumption);
    erewrite errored_count_insert by eassumption;
    match goal with E : Partition.errored _ = false |- _ => rewrite E end;
    cbn [Partition.errored Z.b2z]; lia.
Qed.

Lemma initial_consistent config st : initial config = Some st -> consistent config st.
Proof.
  unfold initial. destruct (Config.partitions config <? 0); [discriminate|].
  intros [= <-]. unfold consistent. cbn [partitionList result erroredPartitions Result.partitionCounts].
  rewrite !length_replicate. split; [reflexivity | split; [reflexivity | split]].
  - unfold errored_count.
    change (map (fun p => Z.b2z (Partition.errored p))) with
      (fmap (M:=list) (fun p => Z.b2z (Partition.errored p))).
    rewrite fmap_replicate, sumZ_replicate. cbn. lia.
  - apply Forall_replicate. reflexivity.
Qed.

(** On consistent locals the loop body does not panic, whenever the
    partition count is positive and its low 32 bits are not all zero. *)
Lemma loop_body_runs config st record :
  consistent config st -> 1 <= Config.partitions config ->
  wrap32 (Config.partitions config) <> 0 ->
  exists st' o c, loop_body config st record = Some (st', o, c).
Proof.
  intros (Hlen & Hcnt & _ & _) Hpos Hdiv. unfold loop_body.
  destruct (ParseInt (fst record) 32) as [i [e|]]; [eauto|].
  destruct (ParseInt (snd record) 64) as [count [e|]]; [eauto|].
  cbv zeta. apply Z.eqb_neq in Hdiv. rewrite Hdiv.
  apply Z.eqb_neq in Hdiv.
  pose proof (wrap32_range (Config.partitions config)) as Hw.
  pose proof (Z.mod_pos_bound (hash (wrap32 i)) (wrap32 (Config.partitions config))
                ltac:(lia)) as Hidx.
  assert (Hle : wrap32 (Config.partitions config) <= Config.partitions config).
  { unfold wrap32. apply Z.mod_le; lia. }
  destruct (partitionList st !! Z.to_nat (hash (wrap32 i) mod wrap32 (Config.partitions config)))
    as [partition|] eqn:Hlook.
  2:{ apply lookup_ge_None in Hlook. lia. }
  destruct (_ && _); [eauto|].
  destruct (negb _); [|eauto].
  destruct (_ <? _); [eauto|].
  unfold store. rewrite Hcnt.
  destruct ((0 <=? _) && (_ <? _)) eqn:E; [eauto|].
  apply andb_false_iff in E as [E | E];
    [apply Z.leb_gt in E | apply Z.ltb_ge in E]; lia.
Qed.

(** ** Congruence modulo [2^64] *)

Lemma eq64_of_eq x y : x = y -> eq64 x y.
Proof. intros ->. reflexivity. Qed.

#[local] Instance eq64_equivalence : Equivalence eq64.
Proof.
  unfold eq64. split.
  - intros x. reflexivity.
  - intros x y H. symmetry. exact H.
  - intros x y z H1 H2. congruence.
Qed.

#[local] Instance eq64_add : Proper (eq64 ==> eq64 ==> eq64) Z.add.
Proof.
  unfold eq64. intros a b Hab c d Hcd.
  rewrite (Z.add_mod a c), (Z.add_mod b d), Hab, Hcd by lia. reflexivity.
Qed.

#[local] Instance eq64_sub : Proper (eq64 ==> eq64 ==> eq64) Z.sub.
Proof.
  unfold eq64. intros a b Hab c d Hcd.
  rewrite (Zminus_mod a c), (Zminus_mod b d), Hab, Hcd. reflexivity.
Qed.

Lemma eq64_wrap64 z : eq64 (wrap64 z) z.
Proof.
  unfold eq64, wrap64. rewrite Zminus_mod_idemp_l. f_equal. lia.
Qed.

(** ** The ledger of one record *)

Lemma loop_body_ledger config st record st' o c :
  loop_body config st record = Some (st', o, c) ->
  eq64 (Result.totalIDs (result st'))
       (Result.totalIDs (result st) + (admitted o + dropped o + filtered o)) /\
  eq64 (sumZ (map Partition.current (partitionList st')))
       (sumZ (map Partition.current (partitionList st)) + admitted o).
Proof.
  intros H. loop_body_cases H;
    cbn [partitionList result Result.totalIDs admitted dropped filtered];
    rewrite ?eq64_wrap64;
    (split; [apply eq64_of_eq; lia|]);
    try (apply eq64_of_eq; lia);
    erewrite sumZ_map_insert by eassumption; cbn [Partition.current];
    rewrite ?eq64_wrap64; apply eq64_of_eq; lia.
Qed.

Lemma loop_body_mirrored config st record st' o c :
  mirrored st -> loop_body config st record = Some (st', o, c) -> mirrored st'.
Proof.
  unfold mirrored. intros Hm H. loop_body_cases H;
    cbn [partitionList result Result.partitionCounts]; try assumption.
  - change (map Partition.current) with (fmap (M:=list) Partition.current) in *.
    rewrite list_fmap_insert. cbn [Partition.current].
    rewrite list_insert_id; [assumption|].
    rewrite list_lookup_fmap. match goal with E : _ !! _ = Some _ |- _ => rewrite E end.
    reflexivity.
  - change (map Partition.current) with (fmap (M:=list) Partition.current) in *.
    rewrite list_fmap_insert. cbn [Partition.current].
    rewrite list_insert_id; [assumption|].
    rewrite list_lookup_fmap. match goal with E : _ !! _ = Some _ |- _ => rewrite E end.
    reflexivity.
  - change (map Partition.current) with (fmap (M:=list) Partition.current) in *.
    rewrite list_fmap_insert. cbn [Partition.current]. rewrite Hm. reflexivity.
Qed.

Lemma loop_body_within_capacity config st record st' o c :
  within_capacity st -> loop_body config st record = Some (st', o, c) ->
  within_capacity st'.
Proof.
  unfold within_capacity. intros Hw H. loop_body_cases H;
    cbn [partitionList]; try assumption;
    intros j p Hj Hp;
    (destruct (decide (j = Z.to_nat (hash (wrap32 z) mod wrap32 (Config.partitions config))))
       as [-> | Hne];
     [ rewrite list_lookup_insert_eq in Hj by (eapply lookup_lt_Some; eassumption);
       injection Hj as <-; cbn in *; first [discriminate | lia]
     | rewrite list_lookup_insert_ne in Hj by congruence; eauto ]).
Qed.

(** An errored partition is left as it is by the loop body. *)
Lemma loop_body_sticky config st record st' o c i p :
  loop_body config st record = Some (st', o, c) ->
  partitionList st !! i = Some p -> Partition.errored p = true ->
  partitionList st' !! i = Some p.
Proof.
  intros H Hi Hp. loop_body_cases H; cbn [partitionList]; try assumption;
    (rewrite list_lookup_insert_ne; [assumption|]);
    intros <-; congruence.
Qed.

(** ** From one record to a run *)

Section Preservation.

Variable config : Config.t.
Variable P : Locals -> Prop.
Hypothesis P_loop_body :
  forall st record st' o c,
    P st -> loop_body config st record = Some (st', o, c) -> P st'.

Lemma steps_preserve records :
  forall st st', P st -> steps config st records = Some st' -> P st'.
Proof.
  induction records as [|record rest IH]; intros st st' HP H; cbn in H.
  - injection H as <-. exact HP.
  - destruct (loop_body config st record) as [[[st1 o] c]|] eqn:E; [|discriminate].
    eapply IH; [|exact H]. eapply P_loop_body; eassumption.
Qed.

End Preservation.

Lemma steps_app config records1 :
  forall st st1 records2,
    steps config st records1 = Some st1 ->
    steps config st (records1 ++ records2) = steps config st1 records2.
Proof.
  induction records1 as [|record rest IH]; intros st st1 records2 H; cbn in *.
  - injection H as <-. reflexivity.
  - destruct (loop_body config st record) as [[[st2 o] c]|]; [|discriminate].
    apply IH. exact H.
Qed.

(** Every scan is a sequence of steps: the records up to the [Break]. *)
Lemma scan_steps config records :
  forall st st' trace,
    scan config st records = Some (st', trace) ->
    exists visited, steps config st visited = Some st'.
Proof.
  induction records as [|record rest IH]; intros st st' trace H; cbn in H.
  - injection H as <- <-. exists []. reflexivity.
  - destruct (loop_body config st record) as [[[st1 o] c]|] eqn:E; [|discriminate].
    destruct c.
    + destruct (scan config st1 rest) as [[st2 trace2]|] eqn:E2; [|discriminate].
      injection H as <- <-. destruct (IH _ _ _ E2) as [visited Hv].
      exists (record :: visited). cbn. rewrite E. exact Hv.
    + injection H as <- <-. exists [record]. cbn. rewrite E. reflexivity.
Qed.

Lemma iterate_steps config records n :
  forall st st' trace,
    iterate config n st records = Some (st', trace) ->
    exists visited, steps config st visited = Some st'.
Proof.
  induction n as [|n IH]; intros st st' trace H; cbn in H.
  - injection H as <- <-. exists []. reflexivity.
  - destruct (scan config st records) as [[st1 trace1]|] eqn:E1; [|discriminate].
    destruct (iterate config n st1 records) as [[st2 trace2]|] eqn:E2; [|discriminate].
    injection H as <- <-.
    destruct (scan_steps _ _ _ _ _ E1) as [v1 Hv1].
    destruct (IH _ _ _ E2) as [v2 Hv2].
    exists (v1 ++ v2). rewrite (steps_app _ _ _ _ _ Hv1). exact Hv2.
Qed.

Lemma resume_steps config st left n records st' trace :
  resume config st left n records = Some (st', trace) ->
  exists visited, steps config st visited = Some st'.
Proof.
  unfold resume. intros H.
  destruct (scan config st left) as [[st1 trace1]|] eqn:E1; [|discriminate].
  destruct (iterate config n st1 records) as [[st2 trace2]|] eqn:E2; [|discriminate].
  injection H as <- <-.
  destruct (scan_steps _ _ _ _ _ E1) as [v1 Hv1].
  destruct (iterate_steps _ _ _ _ _ _ E2) as [v2 Hv2].
  exists (v1 ++ v2). rewrite (steps_app _ _ _ _ _ Hv1). exact Hv2.
Qed.

Lemma run_steps config records st trace :
  run config records = Some (st, trace) ->
  exists st0 visited, initial config = Some st0 /\ steps config st0 visited = Some st.
Proof.
  unfold run. destruct (initial config) as [st0|]; [|discriminate].
  intros H. destruct (iterate_steps _ _ _ _ _ _ H) as [visited Hv]. eauto.
Qed.

(** The ledger of a scan and of the iterations. *)
Lemma scan_ledger config records :
  forall st st' trace,
    scan config st records = Some (st', trace) ->
    eq64 (Result.totalIDs (result st'))
         (Result.totalIDs (result st)
          + (total admitted trace + total dropped trace + total filtered trace)) /\
    eq64 (sumZ (map Partition.current (partitionList st')))
         (sumZ (map Partition.current (partitionList st)) + total admitted trace).
Proof.
  induction records as [|record rest IH]; intros st st' trace H; cbn in H.
  - injection H as <- <-. split; apply eq64_of_eq; cbn; lia.
  - destruct (loop_body config st record) as [[[st1 o] c]|] eqn:E; [|discriminate].
    destruct (loop_body_ledger _ _ _ _ _ _ E) as [L1 L2].
    destruct c.
    + destruct (scan config st1 rest) as [[st2 trace2]|] eqn:E2; [|discriminate].
      injection H as <- <-. destruct (IH _ _ _ E2) as [I1 I2].
      rewrite I1, I2, L1, L2.
      split; apply eq64_of_eq; unfold total, sumZ; cbn [map foldr]; lia.
    + injection H as <- <-. rewrite L1, L2.
      split; apply eq64_of_eq; unfold total, sumZ; cbn [map foldr]; lia.
Qed.

Lemma iterate_ledger config records n :
  forall st st' trace,
    iterate config n st records = Some (st', trace) ->
    eq64 (Result.totalIDs (result st'))
         (Result.totalIDs (result st)
          + (total admitted trace + total dropped trace + total filtered trace)) /\
    eq64 (sumZ (map Partition.current (partitionList st')))
         (sumZ (map Partition.current (partitionList st)) + total admitted trace).
Proof.
  induction n as [|n IH]; intros st st' trace H; cbn in H.
  - injection H as <- <-. split; apply eq64_of_eq; cbn; lia.
  - destruct (scan config st records) as [[st1 trace1]|] eqn:E1; [|discriminate].
    destruct (iterate config n st1 records) as [[st2 trace2]|] eqn:E2; [|discriminate].
    injection H as <- <-.
    destruct (scan_ledger _ _ _ _ _ E1) as [S1 S2].
    destruct (IH _ _ _ E2) as [I1 I2].
    rewrite I1, I2, S1, S2, !total_app.
    split; apply eq64_of_eq; lia.
Qed.

Ltac same_parse :=
  repeat match goal with
         | E : (_, None) = (_, None) |- _ => injection E as ->
         end.

(** A parsed record always yields its document id and its partition index,
    and moves both totals. *)
Lemma loop_body_parsed config st record i count st' o c :
  ParseInt (fst record) 32 = (i, None) ->
  ParseInt (snd record) 64 = (count, None) ->
  loop_body config st record = Some (st', o, c) ->
  key_of o = Some (wrap32 i) /\
  index_of o = Some (hash (wrap32 i) mod wrap32 (Config.partitions config)) /\
  Result.totalDocuments (result st') = wrap64 (Result.totalDocuments (result st) + 1) /\
  Result.totalIDs (result st') = wrap64 (Result.totalIDs (result st) + count).
Proof.
  intros Hk Hw H. loop_body_cases H; try congruence;
    same_parse;
    cbn [key_of index_of result Result.totalDocuments Result.totalIDs];
    repeat split; reflexivity.
Qed.

(** ** C2: a key already in the outlier registry *)

(** What the code does with a record over the threshold whose key is
    already registered: no notice is added, and the record goes on to the
    partition update like any other record. *)
Lemma registered_outlier_goes_on config st record i count partition st' o c :
  ParseInt (fst record) 32 = (i, None) ->
  ParseInt (snd record) 64 = (count, None) ->
  Config.outlier config < count ->
  loggedOutliers st !! wrap32 i = Some true ->
  partitionList st !! Z.to_nat (hash (wrap32 i) mod wrap32 (Config.partitions config))
    = Some partition ->
  Partition.errored partition = false ->
  wrap64 (Partition.current partition + count) <= Partition.max partition ->
  loop_body config st record = Some (st', o, c) ->
  pinnedMessages st' = pinnedMessages st /\
  partitionList st' !! Z.to_nat (hash (wrap32 i) mod wrap32 (Config.partitions config))
    = Some (Partition.mk (wrap64 (Partition.current partition + count))
              (Partition.max partition) false).
Proof.
  intros Hk Hw Hout Hreg Hpart Herr Hfit H. loop_body_cases H; try congruence;
    same_parse;
    cbn [pinnedMessages partitionList].
  - (* the outlier branch is not taken: the key is registered *)
    exfalso. rewrite Hreg in *. cbn in *.
    match goal with E : _ && _ = true |- _ => apply andb_true_iff in E as [_ E]; discriminate E end.
  - rewrite Hpart in *. match goal with E : Some _ = Some _ |- _ => injection E as <- end. lia.
  - rewrite Hpart in *. match goal with E : Some _ = Some _ |- _ => injection E as <- end. lia.
  - rewrite Hpart in *. match goal with E : Some _ = Some _ |- _ => injection E as <- end.
    split; [reflexivity|].
    apply list_lookup_insert_eq. eapply lookup_lt_Some; eassumption.
Qed.

(** C2. The code at the failing input: one partition, ceiling 100, floor 0,
    outlier threshold 5, two iterations over the single record (7, 10). The
    first pass registers key 7 and skips the record with a notice. On the
    second pass the key is registered, and the record is not skipped: it is
    added to partition 0, whose count ends at 10. *)
Theorem registered_outlier_is_counted :
  observe <$> run (Config.mk 1 100 0 2 5) [("7", "10")]%string =
  Some (Result.mk 2 20 [10], [(7, 10, 0)], [10],
        [OutlierSkipped 7 10 0; Incremented 7 10 0 10]).
Proof. vm_compute. reflexivity. Qed.

(** ** C3: partitionCounts and the final current values *)

(** C3. The code at the failing input: two partitions with floor 1 and
    ceiling 100, one record (1, 5). The record goes to partition 0; partition
    1 admits nothing. Its final [current] is the floor, 1, and its entry of
    [partitionCounts] is 0. *)
Theorem untouched_partition_counts_zero :
  observe <$> run (Config.mk 2 100 1 1 (2 ^ 63 - 1)) [("1", "5")]%string =
  Some (Result.mk 1 5 [6; 0], [], [6; 1], [Incremented 1 5 0 5]).
Proof. vm_compute. reflexivity. Qed.

(** ** C4: parse failures and the totals *)



(** The three fates of a parsed record in one run: two partitions, ceiling
    10, threshold 20. Record (1, 25) is skipped as an outlier, (1, 11)
    exceeds the ceiling of partition 0, (1, 2) is aimed at the errored
    partition; the totals count all three. *)
Example totals_count_every_parsed_record :
  observe <$> run (Config.mk 2 10 0 1 20)
                [("1", "25"); ("1", "11"); ("1", "2"); ("", "4")]%string =
  Some (Result.mk 3 38 [0; 0], [(1, 25, 0)], [0; 0],
        [OutlierSkipped 1 25 0; Exceeded 1 11 0 10; Untouched 1 2 0; ParseError]).
Proof. vm_compute. reflexivity. Qed.

(** ** C5: the error returned with the result *)

Lemma run_consistent config records st trace :
  run config records = Some (st, trace) -> consistent config st.
Proof.
  intros H. destruct (run_steps _ _ _ _ H) as (st0 & visited & H0 & Hv).
  eapply (steps_preserve config (consistent config)); [|apply initial_consistent|];
    eauto using loop_body_consistent.
Qed.

(** C5. With at least one partition configured, a run that reaches the end
    of its iterations returns the accumulated result together with the error
    that section 4.2 prescribes for the final count of errored partitions:
    none for 0, "all partitions ..." for the partition count, "1 partition
    ..." for 1, "n partitions ..." for any other n, which then lies strictly
    between 0 and the partition count. The counter is the number of
    partitions whose flag is set. *)
Theorem error_follows_errored_partitions config records res err :
  1 <= Config.partitions config ->
  ProcessCSV config records = Some (res, err) ->
  exists st trace,
    run config records = Some (st, trace) /\
    res = result st /\
    length (Result.partitionCounts res) = Z.to_nat (Config.partitions config) /\
    erroredPartitions st = errored_count (partitionList st) /\
    0 <= erroredPartitions st <= Config.partitions config /\
    err = FinalizeSpec.outcome (Config.partitions config) (erroredPartitions st).
Proof.
  intros Hp H. unfold ProcessCSV in H.
  destruct (run config records) as [[st trace]|] eqn:E; [|discriminate].
  injection H as <- <-. exists st, trace.
  destruct (run_consistent _ _ _ _ E) as (Hlen & Hcnt & Herr & _).
  pose proof (errored_count_bounds (partitionList st)) as Hb.
  repeat split; try assumption; try lia.
  unfold classify, FinalizeSpec.outcome.
  destruct (erroredPartitions st =? 0) eqn:E0; tidy_tests.
  - rewrite E0.
    destruct (0 =? Config.partitions config) eqn:E1; tidy_tests; [lia|].
    reflexivity.
  - destruct (erroredPartitions st =? Config.partitions config); [reflexivity|].
    destruct (erroredPartitions st =? 1) eqn:E1; tidy_tests.
    + rewrite E1. reflexivity.
    + destruct (0 <? erroredPartitions st) eqn:E2; tidy_tests; [reflexivity | lia].
Qed.

(** Outside the configuration contract of section 6: with no partition at
    all the counter, 0, equals the partition count, and the first test of
    the classification answers for it. *)
Example no_partition_is_all_partitions :
  ProcessCSV (Config.mk 0 10 0 1 20) [("x", "1")]%string =
  Some (Result.mk 0 0 [], Some "all partitions have exceeded their maximum value"%string).
Proof. vm_compute. reflexivity. Qed.

Lemma error_follows_errored_partitions_witness :
  let config := Config.mk 3 10 0 1 (2 ^ 63 - 1) in
  let records := [("1", "11"); ("2", "11"); ("3", "1")]%string in
  exists st trace,
    run config records = Some (st, trace) /\
    Result.mk 3 23 [1; 0; 0] = result st /\
    length (Result.partitionCounts (Result.mk 3 23 [1; 0; 0])) = Z.to_nat 3 /\
    erroredPartitions st = errored_count (partitionList st) /\
    0 <= erroredPartitions st <= 3 /\
    Some "2 partitions exceeded their maximum value"%string =
      FinalizeSpec.outcome 3 (erroredPartitions st).
Proof.
  intros config records.
  apply (error_follows_errored_partitions config records).
  - vm_compute. discriminate.
  - vm_compute. reflexivity.
Defined.

(** ** C6: current <= capacity *)

(** C6, as stated, fails at initialization when the floor is above the
    ceiling: with [-max 0] and the default floor 1, partition 0 starts at
    [current = 1 > 0 = max] and is not errored. *)
Lemma capacity_invariant_needs_floor_below_ceiling :
  ~ capacity_invariant_unconditional.
Proof.
  intros H.
  specialize (H (Config.mk 1 0 1 1 (2 ^ 63 - 1)) [] _ _ eq_refl eq_refl
                0%nat (Partition.mk 1 0 false) eq_refl eq_refl).
  cbn in H. lia.
Qed.

Lemma initial_within_capacity config st :
  Config.min config <= Config.max config ->
  initial config = Some st -> within_capacity st.
Proof.
  unfold initial. intros Hle.
  destruct (Config.partitions config <? 0); [discriminate|].
  intros [= <-] i p Hi _. cbn [partitionList] in Hi.
  apply lookup_replicate in Hi as [-> _]. exact Hle.
Qed.

(** C6 (amended). When the configured floor is not above the ceiling, at
    every state a run passes through -- from the initial one, after any
    sequence of records -- every partition that is not errored has
    [current <= max], and [max] is the configured ceiling. *)
Theorem current_within_capacity config records st0 st i p :
  Config.min config <= Config.max config ->
  initial config = Some st0 ->
  steps config st0 records = Some st ->
  partitionList st !! i = Some p ->
  Partition.errored p = false ->
  Partition.current p <= Partition.max p /\ Partition.max p = Config.max config.
Proof.
  intros Hle H0 Hsteps Hi Hp. split.
  - assert (Hw : within_capacity st).
    { eapply (steps_preserve config within_capacity); [|eapply initial_within_capacity|];
        eauto using loop_body_within_capacity. }
    exact (Hw i p Hi Hp).
  - assert (Hc : consistent config st).
    { eapply (steps_preserve config (consistent config)); [|apply initial_consistent|];
        eauto using loop_body_consistent. }
    destruct Hc as (_ & _ & _ & Hmax).
    exact (Forall_lookup_1 _ _ _ _ Hmax Hi).
Qed.

Lemma current_within_capacity_witness :
  Partition.current (Partition.mk 9 10 false) <= Partition.max (Partition.mk 9 10 false) /\
  Partition.max (Partition.mk 9 10 false) = Config.max (Config.mk 2 10 0 1 20).
Proof.
  apply (current_within_capacity (Config.mk 2 10 0 1 20)
           [("3", "4"); ("3", "5"); ("1", "11"); ("3", "-3"); ("3", "3")]%string
           (mkLocals (replicate 2 (Partition.mk 0 10 false)) (Result.mk 0 0 [0; 0]) 0 [] ∅)
           (mkLocals [Partition.mk 0 10 true; Partition.mk 9 10 false]
              (Result.mk 5 20 [0; 9]) 1 [] ∅)
           1%nat (Partition.mk 9 10 false)).
  - vm_compute. discriminate.
  - reflexivity.
  - vm_compute. reflexivity.
  - reflexivity.
  - reflexivity.
Defined.

(** The invariant at the end of a run. *)
Corollary run_within_capacity config records st trace :
  Config.min config <= Config.max config ->
  run config records = Some (st, trace) -> within_capacity st.
Proof.
  intros Hle H.
  destruct (run_steps _ _ _ _ H) as (st0 & visited & H0 & Hv).
  eapply (steps_preserve config within_capacity); [|eapply initial_within_capacity|];
    eauto using loop_body_within_capacity.
Qed.

(** ** C7: an errored partition is final *)

(** C7. From any point of a run -- whatever is left of the current scan and
    however many iterations follow -- a partition whose [errored] flag is set
    still has the flag set at the end, and its [current] is the same. *)
Theorem errored_is_final config st left n records st' trace i p :
  resume config st left n records = Some (st', trace) ->
  partitionList st !! i = Some p ->
  Partition.errored p = true ->
  exists p',
    partitionList st' !! i = Some p' /\
    Partition.errored p' = true /\
    Partition.current p' = Partition.current p.
Proof.
  intros H Hi Hp. exists p.
  destruct (resume_steps _ _ _ _ _ _ _ H) as [visited Hv].
  split; [|split; [assumption | reflexivity]].
  apply (steps_preserve config (fun s => partitionList s !! i = Some p))
    with (records := visited) (st := st); [|assumption..].
  intros s record s' o c Hs Hbody. eapply loop_body_sticky; eassumption.
Qed.

Lemma errored_is_final_witness :
  exists p',
    [Partition.mk 4 10 false; Partition.mk 3 10 true; Partition.mk 10 10 false] !! 1%nat
      = Some p' /\
    Partition.errored p' = true /\
    Partition.current p' = Partition.current (Partition.mk 3 10 true).
Proof.
  apply (errored_is_final (Config.mk 3 10 0 3 20)
           (mkLocals [Partition.mk 0 10 false; Partition.mk 3 10 true; Partition.mk 0 10 false]
              (Result.mk 2 14 [0; 3; 0]) 1 [] ∅)
           [("2", "2"); ("1", "5")]%string 1
           [("2", "1"); ("3", "4"); ("1", "5")]%string
           (mkLocals [Partition.mk 4 10 false; Partition.mk 3 10 true; Partition.mk 10 10 false]
              (Result.mk 7 31 [4; 3; 10]) 1 [] ∅)
           [Untouched 2 2 1; Incremented 1 5 2 5;
            Untouched 2 1 1; Incremented 3 4 0 4; Incremented 1 5 2 5]
           1%nat (Partition.mk 3 10 true)).
  - vm_compute. reflexivity.
  - reflexivity.
  - reflexivity.
Defined.

(** ** C8: the partition index *)

Lemma loop_body_index config st record st' o c idx :
  loop_body config st record = Some (st', o, c) ->
  index_of o = Some idx ->
  wrap32 (Config.partitions config) <> 0 /\
  is_Some (partitionList st !! Z.to_nat idx) /\
  exists key, key_of o = Some key /\ 0 <= key < 2 ^ 32 /\
              idx = hash key mod wrap32 (Config.partitions config).
Proof.
  intros H Hidx. loop_body_cases H; cbn [index_of key_of] in *; try discriminate;
    injection Hidx as <-;
    (split; [assumption | split; [eauto | eexists; split; [reflexivity|]]]);
    (split; [apply wrap32_range | reflexivity]).
Qed.

(** For any positive partition count whose low 32 bits are not all zero the
    index stays inside the slice; it is taken modulo those 32 bits. *)
Lemma partition_index_low_bits config st record st' o c idx :
  1 <= Config.partitions config ->
  loop_body config st record = Some (st', o, c) ->
  index_of o = Some idx ->
  0 <= idx < wrap32 (Config.partitions config) /\
  wrap32 (Config.partitions config) <= Config.partitions config.
Proof.
  intros Hp H Hidx.
  destruct (loop_body_index _ _ _ _ _ _ _ H Hidx) as (Hdiv & _ & key & _ & _ & ->).
  pose proof (wrap32_range (Config.partitions config)) as Hw.
  split; [apply Z.mod_pos_bound; lia|].
  unfold wrap32. apply Z.mod_le; lia.
Qed.




(** ** C9: the balance of weights *)

(** C9, as stated, fails as soon as the floor is not zero: the counts are
    [current] values and start from the floor. One partition, floor 1, one
    record (1, 5): the count is 6 and [totalIDs] is 5. *)
Lemma balance_needs_zero_floor : ~ balance_unconditional.
Proof.
  intros H.
  specialize (H (Config.mk 1 100 1 1 (2 ^ 63 - 1)) [("1", "5")]%string
                (mkLocals [Partition.mk 6 100 false] (Result.mk 1 5 [6]) 0 [] ∅)
                [Incremented 1 5 0 5] eq_refl).
  assert (E : 6 + 0 = 5 - 0); [|lia].
  apply H.
  - vm_compute. reflexivity.
  - repeat constructor. discriminate.
Qed.

(** The equation holds between [int64] values only: two partitions, floor
    0, two records of weight [2^62]. The counts add up to [2^63]; [totalIDs]
    has wrapped to [-2^63]. *)
Example balance_wraps :
  observe <$> run (Config.mk 2 (2 ^ 63 - 1) 0 1 (2 ^ 63 - 1))
                [("1", "4611686018427387904"); ("3", "4611686018427387904")]%string =
  Some (Result.mk 2 (- 2 ^ 63) [2 ^ 62; 2 ^ 62], [], [2 ^ 62; 2 ^ 62],
        [Incremented 1 (2 ^ 62) 0 (2 ^ 62); Incremented 3 (2 ^ 62) 1 (2 ^ 62)]).
Proof. vm_compute. reflexivity. Qed.

Lemma initial_mirrored config st :
  Config.min config = 0 -> initial config = Some st -> mirrored st.
Proof.
  unfold initial, mirrored. intros Hmin.
  destruct (Config.partitions config <? 0); [discriminate|].
  intros [= <-]. cbn [result partitionList Result.partitionCounts].
  change (map Partition.current) with (fmap (M:=list) Partition.current).
  rewrite fmap_replicate. cbn [Partition.current]. rewrite Hmin. reflexivity.
Qed.

(** For any floor: the [current] values, less the floor of each partition,
    add up to the admitted weights. *)
Lemma balance_of_currents config records st trace :
  run config records = Some (st, trace) ->
  eq64 (sumZ (map Partition.current (partitionList st)))
       (Z.of_nat (length (partitionList st)) * Config.min config + total admitted trace) /\
  eq64 (Result.totalIDs (result st))
       (total admitted trace + total dropped trace + total filtered trace).
Proof.
  intros H. pose proof (run_consistent _ _ _ _ H) as (Hlen & _).
  unfold run in H. destruct (initial config) as [st0|] eqn:E0; [|discriminate].
  destruct (iterate_ledger _ _ _ _ _ _ H) as [L1 L2].
  rewrite L1, L2, Hlen. clear L1 L2 H.
  unfold initial in E0. destruct (Config.partitions config <? 0); [discriminate|].
  injection E0 as <-. cbn [result partitionList Result.totalIDs].
  change (map Partition.current) with (fmap (M:=list) Partition.current).
  rewrite fmap_replicate, sumZ_replicate. cbn [Partition.current].
  split; apply eq64_of_eq; lia.
Qed.

(** C9 (amended). With floor 0, for any number of iterations, the counts
    plus the weights dropped at the ceiling or at an errored partition equal
    [totalIDs] less the weights skipped as outliers, as [int64] values
    (modulo [2^64]). Records that fail to parse are on neither side. *)
Theorem balance_with_zero_floor config records st trace :
  Config.min config = 0 ->
  run config records = Some (st, trace) ->
  eq64 (sumZ (Result.partitionCounts (result st)) + total dropped trace)
       (Result.totalIDs (result st) - total filtered trace).
Proof.
  intros Hmin H.
  assert (Hm : mirrored st).
  { destruct (run_steps _ _ _ _ H) as (st0 & visited & H0 & Hv).
    eapply (steps_preserve config mirrored); [|eapply initial_mirrored|];
      eauto using loop_body_mirrored. }
  destruct (balance_of_currents _ _ _ _ H) as [B1 B2].
  rewrite Hm, B1, B2, Hmin. apply eq64_of_eq. lia.
Qed.

Lemma balance_with_zero_floor_witness :
  eq64 (sumZ [0; 7] + total dropped [OutlierSkipped 1 25 0; Exceeded 1 11 0 10;
                                       Untouched 1 2 0; ParseError; Incremented 3 7 1 7])
       (45 - total filtered [OutlierSkipped 1 25 0; Exceeded 1 11 0 10;
                              Untouched 1 2 0; ParseError; Incremented 3 7 1 7]).
Proof.
  apply (balance_with_zero_floor (Config.mk 2 10 0 1 20)
           [("1", "25"); ("1", "11"); ("1", "2"); ("", "4"); ("3", "7")]%string
           (mkLocals [Partition.mk 0 10 true; Partition.mk 7 10 false]
              (Result.mk 4 45 [0; 7]) 1 [(1, 25, 0)] {[1 := true]})).
  - reflexivity.
  - vm_compute. reflexivity.
Defined.

(** ** C10: negative key text *)

(** C10. A key field that is a minus sign followed by decimal digits of
    value [v], [1 <= v <= 2^31], is not a parse error: [ParseInt] returns
    [-v], the document id is its two's-complement image [2^32 - v], the
    record is routed to partition [hash(2^32 - v) % uint32(partitions)], and
    it adds one to [totalDocuments] and its weight to [totalIDs]. *)
Theorem negative_key_is_processed config st digits weight count :
  all_digits digits = true ->
  1 <= decimal_value digits <= 2 ^ 31 ->
  ParseInt weight 64 = (count, None) ->
  consistent config st ->
  1 <= Config.partitions config ->
  wrap32 (Config.partitions config) <> 0 ->
  ParseInt (String "-" digits) 32 = (- decimal_value digits, None) /\
  exists st' o c,
    loop_body config st (String "-" digits, weight) = Some (st', o, c) /\
    o <> ParseError /\
    key_of o = Some (2 ^ 32 - decimal_value digits) /\
    index_of o = Some (hash (2 ^ 32 - decimal_value digits)
                         mod wrap32 (Config.partitions config)) /\
    Result.totalDocuments (result st') =
      wrap64 (Result.totalDocuments (result st) + 1) /\
    Result.totalIDs (result st') = wrap64 (Result.totalIDs (result st) + count).
Proof.
  intros Hd Hv Hw Hc Hp Hdiv.
  pose proof (ParseInt_negative digits Hd Hv) as Hk.
  split; [exact Hk|].
  destruct (loop_body_runs config st (String "-" digits, weight) Hc Hp Hdiv)
    as (st' & o & c & H).
  exists st', o, c. split; [exact H|].
  destruct (loop_body_parsed config st (String "-" digits, weight) _ _ _ _ _ Hk Hw H)
    as (Hkey & Hidx & Hdocs & Hids).
  assert (E : wrap32 (- decimal_value digits) = 2 ^ 32 - decimal_value digits).
  { unfold wrap32.
    replace (- decimal_value digits) with (2 ^ 32 - decimal_value digits + (-1) * 2 ^ 32)
      by lia.
    rewrite Z.mod_add by lia. apply Z.mod_small. lia. }
  rewrite E in *.
  repeat split; try assumption.
  intros ->. discriminate Hkey.
Qed.

Lemma negative_key_is_processed_witness :
  let config := Config.mk 3 10 0 1 20 in
  let st := mkLocals (replicate 3 (Partition.mk 0 10 false)) (Result.mk 0 0 [0; 0; 0]) 0 [] ∅ in
  ParseInt "-1" 32 = (- decimal_value "1", None) /\
  exists st' o c,
    loop_body config st ("-1", "4")%string = Some (st', o, c) /\
    o <> ParseError /\
    key_of o = Some (2 ^ 32 - decimal_value "1") /\
    index_of o = Some (hash (2 ^ 32 - decimal_value "1") mod wrap32 3) /\
    Result.totalDocuments (result st') = wrap64 (0 + 1) /\
    Result.totalIDs (result st') = wrap64 (0 + 4).
Proof.
  intros config st.
  apply (negative_key_is_processed config st "1" "4" 4).
  - reflexivity.
  - vm_compute. split; discriminate.
  - vm_compute. reflexivity.
  - unfold consistent. vm_compute. repeat split; repeat constructor.
  - vm_compute. discriminate.
  - vm_compute. discriminate.
Defined.

(** The two ends of the range in one run: "-1" is document 4294967295 and
    "-2147483648" is document 2147483648. The same keys written as unsigned
    decimal text do not fit [ParseInt]'s 32 bits and are parse errors. *)
Example negative_keys_run :
  observe <$> run (Config.mk 3 10 0 1 20)
                [("-1", "4"); ("-2147483648", "5"); ("4294967295", "4");
                 ("2147483648", "5"); ("-2147483649", "5")]%string =
  Some (Result.mk 2 9 [5; 0; 4], [], [5; 0; 4],
        [Incremented 4294967295 4 2 4; Incremented 2147483648 5 0 5;
         ParseError; ParseError; ParseError]).
Proof. vm_compute. reflexivity. Qed.

(** * Further properties of the engine *)

(** ** A state invariant and a property of outcomes, along a run *)

Section Along.

Variable config : Config.t.
Variable P : Locals -> Prop.
Variable Q : Outcome -> Prop.
Hypothesis PQ_loop_body :
  forall st record st' o c,
    P st -> loop_body config st record = Some (st', o, c) -> P st' /\ Q o.

Lemma scan_along records :
  forall st st' trace,
    P st -> scan config st records = Some (st', trace) -> P st' /\ Forall Q trace.
Proof.
  induction records as [|record rest IH]; intros st st' trace HP H; cbn in H.
  - injection H as <- <-. split; [exact HP | constructor].
  - destruct (loop_body config st record) as [[[st1 o] c]|] eqn:E; [|discriminate].
    destruct (PQ_loop_body _ _ _ _ _ HP E) as [HP1 HQ].
    destruct c.
    + destruct (scan config st1 rest) as [[st2 trace2]|] eqn:E2; [|discriminate].
      injection H as <- <-. destruct (IH _ _ _ HP1 E2) as [HP2 HQ2].
      split; [exact HP2 | constructor; assumption].
    + injection H as <- <-. split; [exact HP1 | repeat constructor; exact HQ].
Qed.

Lemma iterate_along records n :
  forall st st' trace,
    P st -> iterate config n st records = Some (st', trace) -> P st' /\ Forall Q trace.
Proof.
  induction n as [|n IH]; intros st st' trace HP H; cbn in H.
  - injection H as <- <-. split; [exact HP | constructor].
  - destruct (scan config st records) as [[st1 trace1]|] eqn:E1; [|discriminate].
    destruct (iterate config n st1 records) as [[st2 trace2]|] eqn:E2; [|discriminate].
    injection H as <- <-.
    destruct (scan_along _ _ _ _ HP E1) as [HP1 HQ1].
    destruct (IH _ _ _ HP1 E2) as [HP2 HQ2].
    split; [exact HP2 | apply Forall_app; split; assumption].
Qed.

End Along.

(** ** The run returns *)

Lemma scan_runs config records :
  1 <= Config.partitions config -> wrap32 (Config.partitions config) <> 0 ->
  forall st, consistent config st ->
    exists st' trace, scan config st records = Some (st', trace) /\ consistent config st'.
Proof.
  intros Hp Hdiv. induction records as [|record rest IH]; intros st Hc; cbn.
  - eauto.
  - destruct (loop_body_runs config st record Hc Hp Hdiv) as (st1 & o & c & E).
    rewrite E. pose proof (loop_body_consistent _ _ _ _ _ _ Hc E) as Hc1.
    destruct c; [|eauto].
    destruct (IH st1 Hc1) as (st2 & trace & E2 & Hc2). rewrite E2. eauto.
Qed.

Lemma iterate_runs config records n :
  1 <= Config.partitions config -> wrap32 (Config.partitions config) <> 0 ->
  forall st, consistent config st ->
    exists st' trace,
      iterate config n st records = Some (st', trace) /\ consistent config st'.
Proof.
  intros Hp Hdiv. induction n as [|n IH]; intros st Hc; cbn.
  - eauto.
  - destruct (scan_runs config records Hp Hdiv st Hc) as (st1 & trace1 & E1 & Hc1).
    rewrite E1. destruct (IH st1 Hc1) as (st2 & trace2 & E2 & Hc2). rewrite E2. eauto.
Qed.



(** ** A partition count whose low 32 bits are zero *)

Lemma loop_body_zero_divisor config st record :
  wrap32 (Config.partitions config) = 0 ->
  loop_body config st record =
    if parses record then None else Some (st, ParseError, Continue).
Proof.
  intros Hz. unfold loop_body, parses.
  destruct (ParseInt (fst record) 32) as [i [e|]]; [reflexivity|].
  destruct (ParseInt (snd record) 64) as [count [e|]]; [reflexivity|].
  cbv zeta. rewrite Hz. reflexivity.
Qed.

Lemma scan_zero_divisor config st records :
  wrap32 (Config.partitions config) = 0 ->
  scan config st records =
    if existsb parses records then None
    else Some (st, replicate (length records) ParseError).
Proof.
  intros Hz. induction records as [|record rest IH]; cbn; [reflexivity|].
  rewrite (loop_body_zero_divisor _ _ _ Hz).
  destruct (parses record); cbn; [reflexivity|].
  rewrite IH. destruct (existsb parses rest); reflexivity.
Qed.

(** When the low 32 bits of the partition count are zero -- no partition at
    all, or [2^32] of them -- the divisor of line 193 is zero. The run panics
    on the first record that parses, if there is an iteration; otherwise it
    reads everything as parse errors and leaves the locals as they were
    initialized. *)
Theorem zero_divisor_run config records st0 :
  wrap32 (Config.partitions config) = 0 ->
  initial config = Some st0 ->
  run config records =
    if existsb parses records && (0 <? Config.iterations config) then None
    else Some (st0, replicate (Z.to_nat (Config.iterations config) * length records)
                      ParseError).
Proof.
  intros Hz H0. unfold run. rewrite H0.
  replace (0 <? Config.iterations config)
    with (negb (Nat.eqb (Z.to_nat (Config.iterations config)) 0)).
  2:{ destruct (0 <? Config.iterations config) eqn:E; tidy_tests.
      - destruct (Z.to_nat (Config.iterations config)) eqn:En; [lia | reflexivity].
      - replace (Z.to_nat (Config.iterations config)) with 0%nat by lia. reflexivity. }
  induction (Z.to_nat (Config.iterations config)) as [|n IH]; cbn [iterate].
  - rewrite andb_false_r. reflexivity.
  - rewrite (scan_zero_divisor _ _ _ Hz).
    destruct (existsb parses records); cbn [andb negb Nat.eqb] in *; [reflexivity|].
    rewrite IH. cbn [Nat.mul]. rewrite replicate_add. reflexivity.
Qed.

Lemma zero_divisor_run_witness :
  run (Config.mk 0 10 0 2 20) [("x", "1"); ("7", "1")]%string = None /\
  run (Config.mk 0 10 0 2 20) [("x", "1"); ("7", "y")]%string =
    Some (mkLocals [] (Result.mk 0 0 []) 0 [] ∅, replicate 4 ParseError).
Proof.
  split.
  - apply (zero_divisor_run (Config.mk 0 10 0 2 20) [("x", "1"); ("7", "1")]%string
             (mkLocals [] (Result.mk 0 0 []) 0 [] ∅)); reflexivity.
  - apply (zero_divisor_run (Config.mk 0 10 0 2 20) [("x", "1"); ("7", "y")]%string
             (mkLocals [] (Result.mk 0 0 []) 0 [] ∅)); reflexivity.
Defined.

(** ** Ceilings and counts *)

Ltac at_index Hj :=
  match type of Hj with
  | <[?k := _]> _ !! ?j = _ =>
      destruct (decide (j = k)) as [-> | ?];
      [ rewrite list_lookup_insert_eq in Hj
          by first [eapply lookup_lt_Some; eassumption | lia]
      | rewrite list_lookup_insert_ne in Hj by congruence ]
  end.

Lemma loop_body_capped config st record st' o c :
  capped st -> loop_body config st record = Some (st', o, c) -> capped st'.
Proof.
  unfold capped. intros Hcap H. loop_body_cases H; cbn [partitionList]; try assumption;
    intros j p Hj; at_index Hj; eauto;
    injection Hj as <-; cbn [Partition.current Partition.max]; eauto.
Qed.

Lemma initial_capped config st :
  Config.min config <= Config.max config -> initial config = Some st -> capped st.
Proof.
  unfold initial. intros Hle.
  destruct (Config.partitions config <? 0); [discriminate|].
  intros [= <-] i p Hi. cbn [partitionList] in Hi.
  apply lookup_replicate in Hi as [-> _]. exact Hle.
Qed.

(** When the floor is not above the ceiling, no partition is ever above the
    configured ceiling, errored or not: the record that would exceed it
    leaves [current] as it was. *)
Theorem current_never_above_ceiling config records st0 st i p :
  Config.min config <= Config.max config ->
  initial config = Some st0 ->
  steps config st0 records = Some st ->
  partitionList st !! i = Some p ->
  Partition.current p <= Config.max config.
Proof.
  intros Hle H0 Hsteps Hi.
  assert (Hcap : capped st).
  { eapply (steps_preserve config capped); [|eapply initial_capped|];
      eauto using loop_body_capped. }
  assert (Hc : consistent config st).
  { eapply (steps_preserve config (consistent config)); [|apply initial_consistent|];
      eauto using loop_body_consistent. }
  destruct Hc as (_ & _ & _ & Hmax).
  rewrite <- (Forall_lookup_1 _ _ _ _ Hmax Hi). exact (Hcap i p Hi).
Qed.

Lemma current_never_above_ceiling_witness :
  Partition.current (Partition.mk 9 10 true) <= Config.max (Config.mk 2 10 0 1 20).
Proof.
  apply (current_never_above_ceiling (Config.mk 2 10 0 1 20)
           [("3", "4"); ("3", "5"); ("3", "2"); ("3", "1")]%string
           (mkLocals (replicate 2 (Partition.mk 0 10 false)) (Result.mk 0 0 [0; 0]) 0 [] ∅)
           (mkLocals [Partition.mk 0 10 false; Partition.mk 9 10 true]
              (Result.mk 4 12 [0; 9]) 1 [] ∅)
           1%nat (Partition.mk 9 10 true)).
  - vm_compute. discriminate.
  - reflexivity.
  - vm_compute. reflexivity.
  - reflexivity.
Defined.

Lemma loop_body_counts_follow config st record st' o c :
  counts_follow config st -> loop_body config st record = Some (st', o, c) ->
  counts_follow config st'.
Proof.
  unfold counts_follow. intros Hf H.
  loop_body_cases H; cbn [partitionList result Result.partitionCounts]; try assumption.
  - intros j cnt p Hc Hj. at_index Hj; eauto.
    injection Hj as <-. cbn [Partition.current]. eauto.
  - intros j cnt p Hc Hj. at_index Hj; eauto.
    injection Hj as <-. cbn [Partition.current]. eauto.
  - intros j cnt p Hc Hj. at_index Hj.
    + rewrite list_lookup_insert_eq in Hc by lia.
      injection Hj as <-. injection Hc as <-. left. reflexivity.
    + rewrite list_lookup_insert_ne in Hc by congruence. eauto.
Qed.

Lemma initial_counts_follow config st :
  initial config = Some st -> counts_follow config st.
Proof.
  unfold initial, counts_follow.
  destruct (Config.partitions config <? 0); [discriminate|].
  intros [= <-] i c p Hc Hp. cbn [partitionList result Result.partitionCounts] in *.
  apply lookup_replicate in Hc as [-> _]. apply lookup_replicate in Hp as [-> _].
  right. split; reflexivity.
Qed.

(** At every state of a run, each entry of [partitionCounts] is the
    [current] of its partition or, as long as the partition has admitted no
    record, the 0 it was allocated with -- whatever the floor is. *)
Theorem counts_mirror_or_zero config records st0 st i cnt p :
  initial config = Some st0 ->
  steps config st0 records = Some st ->
  Result.partitionCounts (result st) !! i = Some cnt ->
  partitionList st !! i = Some p ->
  cnt = Partition.current p \/ (cnt = 0 /\ Partition.current p = Config.min config).
Proof.
  intros H0 Hsteps. revert i cnt p. change (counts_follow config st).
  eapply (steps_preserve config (counts_follow config)); [|eapply initial_counts_follow|];
    eauto using loop_body_counts_follow.
Qed.

Lemma counts_mirror_or_zero_witness :
  (7 = Partition.current (Partition.mk 7 10 false) \/
   (7 = 0 /\ Partition.current (Partition.mk 7 10 false) = 3)) /\
  (0 = Partition.current (Partition.mk 3 10 true) \/
   (0 = 0 /\ Partition.current (Partition.mk 3 10 true) = 3)).
Proof.
  split.
  - apply (counts_mirror_or_zero (Config.mk 2 10 3 1 20)
             [("3", "4"); ("1", "8")]%string
             (mkLocals (replicate 2 (Partition.mk 3 10 false)) (Result.mk 0 0 [0; 0]) 0 [] ∅)
             (mkLocals [Partition.mk 3 10 true; Partition.mk 7 10 false]
                (Result.mk 2 12 [0; 7]) 1 [] ∅)
             1%nat 7 (Partition.mk 7 10 false));
      solve [reflexivity | vm_compute; reflexivity].
  - apply (counts_mirror_or_zero (Config.mk 2 10 3 1 20)
             [("3", "4"); ("1", "8")]%string
             (mkLocals (replicate 2 (Partition.mk 3 10 false)) (Result.mk 0 0 [0; 0]) 0 [] ∅)
             (mkLocals [Partition.mk 3 10 true; Partition.mk 7 10 false]
                (Result.mk 2 12 [0; 7]) 1 [] ∅)
             0%nat 0 (Partition.mk 3 10 true));
      solve [reflexivity | vm_compute; reflexivity].
Defined.

(** ** The totals count the parsed records *)

Section Ledger.

Variable config : Config.t.
Variable f : Locals -> Z.
Variable g : Outcome -> Z.
Hypothesis fg_loop_body :
  forall st record st' o c,
    loop_body config st record = Some (st', o, c) -> eq64 (f st') (f st + g o).

Lemma scan_sum records :
  forall st st' trace,
    scan config st records = Some (st', trace) -> eq64 (f st') (f st + total g trace).
Proof.
  induction records as [|record rest IH]; intros st st' trace H; cbn in H.
  - injection H as <- <-. apply eq64_of_eq. cbn. lia.
  - destruct (loop_body config st record) as [[[st1 o] c]|] eqn:E; [|discriminate].
    pose proof (fg_loop_body _ _ _ _ _ E) as L.
    destruct c.
    + destruct (scan config st1 rest) as [[st2 trace2]|] eqn:E2; [|discriminate].
      injection H as <- <-. rewrite (IH _ _ _ E2), L.
      apply eq64_of_eq. unfold total, sumZ. cbn [map foldr]. lia.
    + injection H as <- <-. rewrite L.
      apply eq64_of_eq. unfold total, sumZ. cbn [map foldr]. lia.
Qed.

Lemma iterate_sum records n :
  forall st st' trace,
    iterate config n st records = Some (st', trace) -> eq64 (f st') (f st + total g trace).
Proof.
  induction n as [|n IH]; intros st st' trace H; cbn in H.
  - injection H as <- <-. apply eq64_of_eq. cbn. lia.
  - destruct (scan config st records) as [[st1 trace1]|] eqn:E1; [|discriminate].
    destruct (iterate config n st1 records) as [[st2 trace2]|] eqn:E2; [|discriminate].
    injection H as <- <-.
    rewrite (IH _ _ _ E2), (scan_sum _ _ _ _ E1), total_app.
    apply eq64_of_eq. lia.
Qed.

End Ledger.

Lemma wrap64_of_eq64 a b : eq64 a b -> - 2 ^ 63 <= a < 2 ^ 63 -> a = wrap64 b.
Proof.
  intros H Ha. rewrite <- (wrap64_small a Ha). unfold wrap64. f_equal.
  unfold eq64 in H. rewrite (Z.add_mod a), (Z.add_mod b), H by lia. reflexivity.
Qed.

Lemma loop_body_documents config st record st' o c :
  loop_body config st record = Some (st', o, c) ->
  eq64 (Result.totalDocuments (result st')) (Result.totalDocuments (result st) + parsed o).
Proof.
  intros H. loop_body_cases H; cbn [result Result.totalDocuments parsed];
    rewrite ?eq64_wrap64; apply eq64_of_eq; lia.
Qed.

Lemma loop_body_ids config st record st' o c :
  loop_body config st record = Some (st', o, c) ->
  eq64 (Result.totalIDs (result st')) (Result.totalIDs (result st) + weight o).
Proof.
  intros H. unfold weight. loop_body_cases H;
    cbn [result Result.totalIDs admitted dropped filtered];
    rewrite ?eq64_wrap64; apply eq64_of_eq; lia.
Qed.

Lemma loop_body_totals_in_range config st record st' o c :
  totals_in_range st -> loop_body config st record = Some (st', o, c) ->
  totals_in_range st'.
Proof.
  unfold totals_in_range. intros Hr H.
  loop_body_cases H; cbn [result Result.totalDocuments Result.totalIDs];
    try assumption; split; apply wrap64_range.
Qed.

Lemma run_totals config records st trace :
  run config records = Some (st, trace) ->
  Result.totalDocuments (result st) = wrap64 (total parsed trace) /\
  Result.totalIDs (result st) = wrap64 (total weight trace).
Proof.
  intros H.
  assert (Hr : totals_in_range st).
  { destruct (run_steps _ _ _ _ H) as (st0 & visited & H0 & Hv).
    eapply (steps_preserve config totals_in_range); [| |exact Hv];
      eauto using loop_body_totals_in_range.
    unfold initial in H0. destruct (Config.partitions config <? 0); [discriminate|].
    injection H0 as <-. split; cbn; lia. }
  unfold run in H. destruct (initial config) as [st0|] eqn:E0; [|discriminate].
  pose proof (iterate_sum config (fun s => Result.totalDocuments (result s)) parsed
                (loop_body_documents config) _ _ _ _ _ H) as Hd.
  pose proof (iterate_sum config (fun s => Result.totalIDs (result s)) weight
                (loop_body_ids config) _ _ _ _ _ H) as Hi.
  unfold initial in E0. destruct (Config.partitions config <? 0); [discriminate|].
  injection E0 as <-. cbn [result Result.totalDocuments Result.totalIDs] in Hd, Hi.
  destruct Hr as [Hr1 Hr2].
  split; apply wrap64_of_eq64; assumption.
Qed.

(** At the end of a run [totalDocuments] is the number of records that
    parsed, over all iterations, and [totalIDs] the sum of their weights --
    both as [int64]: the record that exceeds a ceiling, the one aimed at an
    errored partition and the outlier count like the admitted one. *)
Theorem totals_of_run config records st trace :
  run config records = Some (st, trace) ->
  Result.totalDocuments (result st) = wrap64 (total parsed trace) /\
  Result.totalIDs (result st) = wrap64 (total weight trace).
Proof. exact (run_totals config records st trace). Qed.

Lemma totals_of_run_witness :
  exists st trace,
    run (Config.mk 2 10 0 2 20) [("1", "25"); ("1", "11"); ("", "4"); ("3", "7")]%string
      = Some (st, trace) /\
    Result.totalDocuments (result st) = wrap64 (total parsed trace) /\
    Result.totalIDs (result st) = wrap64 (total weight trace).
Proof.
  eexists _, _. split; [vm_compute; reflexivity|].
  apply (totals_of_run (Config.mk 2 10 0 2 20)
           [("1", "25"); ("1", "11"); ("", "4"); ("3", "7")]%string).
  vm_compute. reflexivity.
Defined.

(** ** Outlier notices *)

Lemma loop_body_registry config st record st' o c :
  registry config st -> loop_body config st record = Some (st', o, c) ->
  registry config st'.
Proof.
  intros (Hnd & Hreg & Hall) H.
  loop_body_cases H; unfold registry; cbn [pinnedMessages loggedOutliers];
    try (split; [assumption | split; assumption]).
  match goal with E : _ && _ = true |- _ => apply andb_true_iff in E as [Hout Hnew] end.
  tidy_tests. rewrite map_app. cbn [map notice_key fst].
  split; [|split].
  - apply NoDup_app. split; [assumption|]. split; [|apply NoDup_singleton].
    intros k Hk Hk'. apply list_elem_of_singleton in Hk'. subst k.
    apply Hreg in Hk. congruence.
  - intros k. rewrite elem_of_app, list_elem_of_singleton.
    destruct (decide (k = wrap32 z)) as [-> | Hne].
    + rewrite lookup_insert_eq. cbn. split; auto.
    + rewrite lookup_insert_ne by congruence. rewrite Hreg. split; [auto|].
      intros [Hk | Hk]; [assumption | contradiction].
  - apply Forall_app. split; [assumption|].
    constructor; [split; [cbn; lia | reflexivity] | constructor].
Qed.

Lemma loop_body_notice config st record st' o c :
  loop_body config st record = Some (st', o, c) ->
  pinnedMessages st' = pinnedMessages st ++ notices [o].
Proof.
  intros H. loop_body_cases H; cbn [pinnedMessages notices omap notice_of];
    rewrite ?app_nil_r; reflexivity.
Qed.

Lemma scan_notices config records :
  forall st st' trace,
    scan config st records = Some (st', trace) ->
    pinnedMessages st' = pinnedMessages st ++ notices trace.
Proof.
  induction records as [|record rest IH]; intros st st' trace H; cbn in H.
  - injection H as <- <-. cbn. rewrite app_nil_r. reflexivity.
  - destruct (loop_body config st record) as [[[st1 o] c]|] eqn:E; [|discriminate].
    pose proof (loop_body_notice _ _ _ _ _ _ E) as L.
    destruct c.
    + destruct (scan config st1 rest) as [[st2 trace2]|] eqn:E2; [|discriminate].
      injection H as <- <-. rewrite (IH _ _ _ E2), L, <- app_assoc.
      f_equal. unfold notices. change (o :: trace2) with ([o] ++ trace2).
      rewrite omap_app. reflexivity.
    + injection H as <- <-. exact L.
Qed.

Lemma iterate_notices config records n :
  forall st st' trace,
    iterate config n st records = Some (st', trace) ->
    pinnedMessages st' = pinnedMessages st ++ notices trace.
Proof.
  induction n as [|n IH]; intros st st' trace H; cbn in H.
  - injection H as <- <-. cbn. rewrite app_nil_r. reflexivity.
  - destruct (scan config st records) as [[st1 trace1]|] eqn:E1; [|discriminate].
    destruct (iterate config n st1 records) as [[st2 trace2]|] eqn:E2; [|discriminate].
    injection H as <- <-.
    rewrite (IH _ _ _ E2), (scan_notices _ _ _ _ _ E1), <- app_assoc.
    unfold notices. rewrite omap_app. reflexivity.
Qed.

(** The pinned notices at the end of a run are the records skipped as
    outliers, in order. No key is noticed twice, over all iterations; each
    notice is for a weight above the threshold and carries the partition its
    key hashes to; and the registry holds exactly the noticed keys. *)
Theorem outlier_notices config records st trace :
  run config records = Some (st, trace) ->
  pinnedMessages st = notices trace /\
  NoDup (map notice_key (pinnedMessages st)) /\
  (forall k, default false (loggedOutliers st !! k) = true <->
             k ∈ map notice_key (pinnedMessages st)) /\
  Forall (fun m => Config.outlier config < snd (fst m) /\
                   snd m = hash (notice_key m) mod wrap32 (Config.partitions config))
         (pinnedMessages st).
Proof.
  intros H. split.
  - unfold run in H. destruct (initial config) as [st0|] eqn:E0; [|discriminate].
    rewrite (iterate_notices _ _ _ _ _ _ H).
    unfold initial in E0. destruct (Config.partitions config <? 0); [discriminate|].
    injection E0 as <-. reflexivity.
  - change (registry config st).
    destruct (run_steps _ _ _ _ H) as (st0 & visited & H0 & Hv).
    eapply (steps_preserve config (registry config)); [| |exact Hv];
      eauto using loop_body_registry.
    unfold initial in H0. destruct (Config.partitions config <? 0); [discriminate|].
    injection H0 as <-. unfold registry. cbn [pinnedMessages loggedOutliers map].
    split; [constructor|]. split; [|constructor].
    intros k. rewrite lookup_empty. cbn. split; [discriminate|].
    intros Hk. apply elem_of_nil in Hk. contradiction.
Qed.

Lemma outlier_notices_witness :
  exists st trace,
    run (Config.mk 2 100 0 3 5) [("7", "10"); ("3", "9"); ("7", "12"); ("1", "2")]%string
      = Some (st, trace) /\
    pinnedMessages st = notices trace /\
    NoDup (map notice_key (pinnedMessages st)) /\
    (forall k, default false (loggedOutliers st !! k) = true <->
               k ∈ map notice_key (pinnedMessages st)) /\
    Forall (fun m => 5 < snd (fst m) /\ snd m = hash (notice_key m) mod wrap32 2)
           (pinnedMessages st).
Proof.
  eexists _, _. split; [vm_compute; reflexivity|].
  apply (outlier_notices (Config.mk 2 100 0 3 5)
           [("7", "10"); ("3", "9"); ("7", "12"); ("1", "2")]%string).
  vm_compute. reflexivity.
Defined.

(** ** The default ceiling and the default threshold *)

Lemma ParseInt_int64 s v : ParseInt s 64 = (v, None) -> - 2 ^ 63 <= v < 2 ^ 63.
Proof.
  unfold ParseInt. destruct s as [|ch rest]; [discriminate|].
  cbv zeta.
  destruct (ParseUint _ 64) as [un [[|]|]];
    try discriminate;
    repeat match goal with
           | |- context [if ?b then _ else _] => destruct b
           end;
    intros [= <-]; apply wrap64_range.
Qed.

Lemma errored_count_zero l i p :
  errored_count l = 0 -> l !! i = Some p -> Partition.errored p = false.
Proof.
  unfold errored_count, sumZ. revert i.
  induction l as [|q l IH]; intros [|i] Hz Hi; cbn in *; try discriminate.
  - injection Hi as ->.
    pose proof (errored_count_bounds l) as Hb. unfold errored_count, sumZ in Hb.
    destruct (Partition.errored p); cbn in *; [lia | reflexivity].
  - pose proof (errored_count_bounds l) as Hb. unfold errored_count, sumZ in Hb.
    apply (IH i); [|assumption].
    destruct (Partition.errored q); cbn in *; lia.
Qed.

Lemma loop_body_default_ceiling config st record st' o c :
  Config.max config = 2 ^ 63 - 1 ->
  consistent config st /\ erroredPartitions st = 0 ->
  loop_body config st record = Some (st', o, c) ->
  (consistent config st' /\ erroredPartitions st' = 0) /\ is_dropped o = false.
Proof.
  intros Hmax [Hc Hz] H.
  pose proof (loop_body_consistent _ _ _ _ _ _ Hc H) as Hc'.
  destruct Hc as (_ & _ & Herr & Hall).
  loop_body_cases H; cbn [erroredPartitions is_dropped]; auto.
  - exfalso.
    match goal with E : partitionList st !! _ = Some ?t |- _ =>
      pose proof (Forall_lookup_1 _ _ _ _ Hall E) as Ht; cbn in Ht
    end.
    match goal with E : Partition.max _ < wrap64 ?x |- _ =>
      pose proof (wrap64_range x)
    end. lia.
  - exfalso.
    match goal with E : partitionList st !! _ = Some ?t |- _ =>
      pose proof (Forall_lookup_1 _ _ _ _ Hall E) as Ht; cbn in Ht
    end.
    match goal with E : Partition.max _ < wrap64 ?x |- _ =>
      pose proof (wrap64_range x)
    end. lia.
  - exfalso.
    match goal with E : partitionList st !! _ = Some ?t |- _ =>
      pose proof (errored_count_zero (partitionList st) _ _ ltac:(lia) E)
    end. congruence.
Qed.

(** With the default ceiling, the largest [int64], no record ever exceeds
    it -- the sum wraps around instead -- so no partition is ever errored, no
    weight is dropped, and [ProcessCSV] returns without an error. *)
Theorem default_ceiling_never_errors config records :
  Config.max config = 2 ^ 63 - 1 ->
  1 <= Config.partitions config ->
  wrap32 (Config.partitions config) <> 0 ->
  exists st trace,
    run config records = Some (st, trace) /\
    ProcessCSV config records = Some (result st, None) /\
    erroredPartitions st = 0 /\
    Forall (fun o => is_dropped o = false) trace.
Proof.
  intros Hmax Hp Hdiv. unfold ProcessCSV, run.
  destruct (initial config) as [st0|] eqn:E0.
  2:{ unfold initial in E0. destruct (Config.partitions config <? 0) eqn:En; [|discriminate].
      tidy_tests. lia. }
  pose proof (initial_consistent _ _ E0) as Hc0.
  destruct (iterate_runs config records (Z.to_nat (Config.iterations config)) Hp Hdiv st0 Hc0)
    as (st & trace & E & _).
  exists st, trace. rewrite E.
  assert (Hz0 : erroredPartitions st0 = 0).
  { unfold initial in E0. destruct (Config.partitions config <? 0); [discriminate|].
    injection E0 as <-. reflexivity. }
  destruct (iterate_along config
              (fun s => consistent config s /\ erroredPartitions s = 0)
              (fun o => is_dropped o = false)
              (fun s r s' o c => loop_body_default_ceiling config s r s' o c Hmax)
              records _ _ _ _ (conj Hc0 Hz0) E) as [[_ Hz] Hq].
  split; [reflexivity|]. split; [|split; assumption].
  unfold classify. rewrite Hz.
  destruct (0 =? Config.partitions config) eqn:E1; tidy_tests; [lia|]. reflexivity.
Qed.

Lemma default_ceiling_never_errors_witness :
  exists st trace,
    run (Config.mk 2 (2 ^ 63 - 1) 1 2 (2 ^ 63 - 1))
      [("1", "9223372036854775807"); ("3", "5"); ("1", "1")]%string = Some (st, trace) /\
    ProcessCSV (Config.mk 2 (2 ^ 63 - 1) 1 2 (2 ^ 63 - 1))
      [("1", "9223372036854775807"); ("3", "5"); ("1", "1")]%string
      = Some (result st, None) /\
    erroredPartitions st = 0 /\
    Forall (fun o => is_dropped o = false) trace.
Proof.
  apply default_ceiling_never_errors.
  - reflexivity.
  - vm_compute. discriminate.
  - vm_compute. discriminate.
Defined.

Lemma loop_body_default_threshold config st record st' o c :
  Config.outlier config = 2 ^ 63 - 1 ->
  pinnedMessages st = [] ->
  loop_body config st record = Some (st', o, c) ->
  pinnedMessages st' = [] /\ is_filtered o = false.
Proof.
  intros Hout Hnil H. loop_body_cases H; cbn [pinnedMessages is_filtered]; auto.
  exfalso.
  match goal with E : _ && _ = true |- _ => apply andb_true_iff in E as [E _] end.
  tidy_tests.
  match goal with E : ParseInt _ 64 = (_, None) |- _ => apply ParseInt_int64 in E end.
  lia.
Qed.

(** With the default threshold, the largest [int64], no weight is above it:
    no record is skipped as an outlier and no notice is pinned. *)
Theorem default_threshold_never_filters config records st trace :
  Config.outlier config = 2 ^ 63 - 1 ->
  run config records = Some (st, trace) ->
  pinnedMessages st = [] /\ Forall (fun o => is_filtered o = false) trace.
Proof.
  intros Hout H. unfold run in H.
  destruct (initial config) as [st0|] eqn:E0; [|discriminate].
  apply (iterate_along config (fun s => pinnedMessages s = [])
           (fun o => is_filtered o = false)
           (fun s r s' o c => loop_body_default_threshold config s r s' o c Hout)
           records _ _ _ _) in H; [exact H|].
  unfold initial in E0. destruct (Config.partitions config <? 0); [discriminate|].
  injection E0 as <-. reflexivity.
Qed.

Lemma default_threshold_never_filters_witness :
  exists st trace,
    run (Config.mk 2 10 0 2 (2 ^ 63 - 1))
      [("1", "9223372036854775807"); ("3", "5")]%string = Some (st, trace) /\
    pinnedMessages st = [] /\ Forall (fun o => is_filtered o = false) trace.
Proof.
  eexists _, _. split; [vm_compute; reflexivity|].
  apply (default_threshold_never_filters (Config.mk 2 10 0 2 (2 ^ 63 - 1))
           [("1", "9223372036854775807"); ("3", "5")]%string).
  - reflexivity.
  - vm_compute. reflexivity.
Defined.

(** ** Leaving the scan, and scanning after every partition is errored *)

Lemma loop_body_record config st record st' o c :
  loop_body config st record = Some (st', o, c) ->
  parsed o = Z.b2z (parses record) /\ weight o = weight_of_record record.
Proof.
  intros H. unfold parses, weight_of_record, weight.
  loop_body_cases H;
    repeat match goal with E : ParseInt _ _ = _ |- _ => rewrite E; clear E end;
    cbn [parsed admitted dropped filtered Z.b2z]; split; lia.
Qed.

Lemma loop_body_break config st record st' o :
  loop_body config st record = Some (st', o, Break) ->
  erroredPartitions st' = Config.partitions config.
Proof.
  intros H. remember Break as c eqn:Ec. revert Ec.
  loop_body_cases H; cbn [erroredPartitions]; try discriminate. intros _. assumption.
Qed.

Lemma loop_body_saturated config st record st' o c :
  all_errored st -> loop_body config st record = Some (st', o, c) ->
  (partitionList st' = partitionList st /\
   Result.partitionCounts (result st') = Result.partitionCounts (result st) /\
   erroredPartitions st' = erroredPartitions st) /\
  touches o = false /\ c = Continue.
Proof.
  unfold all_errored. intros Hall H.
  loop_body_cases H;
    cbn [partitionList result Result.partitionCounts erroredPartitions touches]; auto;
    exfalso;
    match goal with E : partitionList st !! _ = Some ?t |- _ =>
      pose proof (Forall_lookup_1 _ _ _ _ Hall E) as Ht; cbn in Ht
    end; congruence.
Qed.

Lemma errored_count_full l :
  errored_count l = Z.of_nat (length l) ->
  Forall (fun p => Partition.errored p = true) l.
Proof.
  unfold errored_count, sumZ. induction l as [|q l IH]; intros H; [constructor|].
  pose proof (errored_count_bounds l) as Hb. unfold errored_count, sumZ in Hb.
  cbn [map foldr length] in H. rewrite Nat2Z.inj_succ in H.
  destruct (Partition.errored q) eqn:Eq; cbn [Z.b2z] in H.
  - constructor; [assumption|]. apply IH. lia.
  - lia.
Qed.

Lemma consistent_all_errored config st :
  consistent config st -> erroredPartitions st = Config.partitions config ->
  all_errored st.
Proof.
  intros (Hlen & _ & Herr & _) Hall. apply errored_count_full.
  pose proof (errored_count_bounds (partitionList st)). lia.
Qed.

Lemma scan_consistent config records st st' trace :
  consistent config st -> scan config st records = Some (st', trace) ->
  consistent config st'.
Proof.
  intros Hc H. destruct (scan_steps _ _ _ _ _ H) as [visited Hv].
  eapply (steps_preserve config (consistent config)); eauto using loop_body_consistent.
Qed.

Lemma scan_breaks config records :
  forall st st' trace,
    scan config st records = Some (st', trace) ->
    (length trace <= length records)%nat /\
    ((length trace < length records)%nat ->
     erroredPartitions st' = Config.partitions config).
Proof.
  induction records as [|record rest IH]; intros st st' trace H; cbn in H.
  - injection H as <- <-. cbn. split; lia.
  - destruct (loop_body config st record) as [[[st1 o] c]|] eqn:E; [|discriminate].
    destruct c.
    + destruct (scan config st1 rest) as [[st2 trace2]|] eqn:E2; [|discriminate].
      injection H as <- <-. destruct (IH _ _ _ E2) as [Hle Hlt].
      cbn [length]. split; [lia|]. intros Hl. apply Hlt. lia.
    + injection H as <- <-. cbn [length]. split; [lia|].
      intros _. eapply loop_body_break; eassumption.
Qed.

(** A scan reads its records one by one and leaves none out, unless it is
    left at the [break] of line 212; and then every partition is errored. *)
Theorem scan_stops_only_when_all_errored config records st st' trace :
  consistent config st ->
  scan config st records = Some (st', trace) ->
  (length trace <= length records)%nat /\
  ((length trace < length records)%nat ->
   erroredPartitions st' = Config.partitions config /\ all_errored st').
Proof.
  intros Hc H. destruct (scan_breaks _ _ _ _ _ H) as [Hle Hlt].
  split; [exact Hle|]. intros Hl. specialize (Hlt Hl). split; [exact Hlt|].
  eapply consistent_all_errored; [|exact Hlt]. eapply scan_consistent; eassumption.
Qed.

Lemma scan_stops_only_when_all_errored_witness :
  exists st' trace,
    scan (Config.mk 2 10 0 1 20)
      (mkLocals [Partition.mk 0 10 false; Partition.mk 0 10 false]
         (Result.mk 0 0 [0; 0]) 0 [] ∅)
      [("1", "11"); ("3", "11"); ("1", "1"); ("3", "1")]%string = Some (st', trace) /\
    (length trace <= 4)%nat /\
    ((length trace < 4)%nat -> erroredPartitions st' = 2 /\ all_errored st').
Proof.
  eexists _, _. split; [vm_compute; reflexivity|].
  apply (scan_stops_only_when_all_errored (Config.mk 2 10 0 1 20)
           [("1", "11"); ("3", "11"); ("1", "1"); ("3", "1")]%string
           (mkLocals [Partition.mk 0 10 false; Partition.mk 0 10 false]
              (Result.mk 0 0 [0; 0]) 0 [] ∅)).
  - unfold consistent. vm_compute. repeat split; repeat constructor.
  - vm_compute. reflexivity.
Defined.

Section Unbroken.

Variable config : Config.t.
Variable P : Locals -> Prop.
Variable Q : Outcome -> Prop.
Hypothesis PQ_loop_body :
  forall st record st' o c,
    P st -> loop_body config st record = Some (st', o, c) ->
    P st' /\ Q o /\ c = Continue.

Lemma scan_unbroken records :
  forall st st' trace,
    P st -> scan config st records = Some (st', trace) ->
    P st' /\ Forall Q trace /\ length trace = length records.
Proof.
  induction records as [|record rest IH]; intros st st' trace HP H; cbn in H.
  - injection H as <- <-. split; [exact HP|]. split; [constructor | reflexivity].
  - destruct (loop_body config st record) as [[[st1 o] c]|] eqn:E; [|discriminate].
    destruct (PQ_loop_body _ _ _ _ _ HP E) as (HP1 & HQ & ->).
    destruct (scan config st1 rest) as [[st2 trace2]|] eqn:E2; [|discriminate].
    injection H as <- <-. destruct (IH _ _ _ HP1 E2) as (HP2 & HQ2 & Hlen).
    split; [exact HP2|]. split; [constructor; assumption | cbn; congruence].
Qed.

Lemma iterate_unbroken records n :
  forall st st' trace,
    P st -> iterate config n st records = Some (st', trace) ->
    P st' /\ Forall Q trace /\ length trace = (n * length records)%nat.
Proof.
  induction n as [|n IH]; intros st st' trace HP H; cbn in H.
  - injection H as <- <-. split; [exact HP|]. split; [constructor | reflexivity].
  - destruct (scan config st records) as [[st1 trace1]|] eqn:E1; [|discriminate].
    destruct (iterate config n st1 records) as [[st2 trace2]|] eqn:E2; [|discriminate].
    injection H as <- <-.
    destruct (scan_unbroken _ _ _ _ HP E1) as (HP1 & HQ1 & Hl1).
    destruct (IH _ _ _ HP1 E2) as (HP2 & HQ2 & Hl2).
    split; [exact HP2|]. split; [apply Forall_app; split; assumption|].
    rewrite length_app. cbn. lia.
Qed.

End Unbroken.

Lemma loop_body_stays_saturated config st0 st record st' o c :
  all_errored st0 ->
  partitionList st = partitionList st0 /\
  Result.partitionCounts (result st) = Result.partitionCounts (result st0) /\
  erroredPartitions st = erroredPartitions st0 ->
  loop_body config st record = Some (st', o, c) ->
  (partitionList st' = partitionList st0 /\
   Result.partitionCounts (result st') = Result.partitionCounts (result st0) /\
   erroredPartitions st' = erroredPartitions st0) /\
  touches o = false /\ c = Continue.
Proof.
  intros Hall (Hl & Hc & He) H.
  assert (Hall' : all_errored st) by (unfold all_errored; rewrite Hl; exact Hall).
  destruct (loop_body_saturated _ _ _ _ _ _ Hall' H) as ((Hl' & Hc' & He') & Ht & Hk).
  repeat split; congruence.
Qed.

(** Once every partition is errored, the following iterations still read
    the whole file, record by record and without a [break]; no record enters
    the partition update, and the partitions, the counts and the counter of
    errored partitions stay as they are. *)
Theorem saturated_run_only_counts config st n records st' trace :
  all_errored st ->
  iterate config n st records = Some (st', trace) ->
  length trace = (n * length records)%nat /\
  Forall (fun o => touches o = false) trace /\
  partitionList st' = partitionList st /\
  Result.partitionCounts (result st') = Result.partitionCounts (result st) /\
  erroredPartitions st' = erroredPartitions st.
Proof.
  intros Hall H.
  destruct (iterate_unbroken config
              (fun s => partitionList s = partitionList st /\
                        Result.partitionCounts (result s) = Result.partitionCounts (result st) /\
                        erroredPartitions s = erroredPartitions st)
              (fun o => touches o = false)
              (fun s r s' o c => loop_body_stays_saturated config st s r s' o c Hall)
              records n st st' trace) as (HP & HQ & Hlen); auto.
Qed.

Lemma saturated_run_only_counts_witness :
  exists st' trace,
    iterate (Config.mk 2 10 0 2 20) 2
      (mkLocals [Partition.mk 4 10 true; Partition.mk 0 10 true]
         (Result.mk 3 26 [4; 0]) 2 [] ∅)
      [("1", "1"); ("3", "25"); ("x", "1")]%string = Some (st', trace) /\
    length trace = (2 * 3)%nat /\
    Forall (fun o => touches o = false) trace /\
    partitionList st' = [Partition.mk 4 10 true; Partition.mk 0 10 true] /\
    Result.partitionCounts (result st') = [4; 0] /\
    erroredPartitions st' = 2.
Proof.
  eexists _, _. split; [vm_compute; reflexivity|].
  apply (saturated_run_only_counts (Config.mk 2 10 0 2 20)
           (mkLocals [Partition.mk 4 10 true; Partition.mk 0 10 true]
              (Result.mk 3 26 [4; 0]) 2 [] ∅) 2
           [("1", "1"); ("3", "25"); ("x", "1")]%string).
  - repeat constructor.
  - vm_compute. reflexivity.
Defined.

(** ** Iterations compose *)


(** ** Every iteration reads the whole file *)

Lemma scan_whole config records :
  forall st st' trace,
    scan config st records = Some (st', trace) ->
    erroredPartitions st' <> Config.partitions config ->
    total parsed trace = records_parsed records /\
    total weight trace = records_weight records.
Proof.
  unfold records_parsed, records_weight, total, sumZ.
  induction records as [|record rest IH]; intros st st' trace H Hne; cbn in H.
  - injection H as <- <-. split; reflexivity.
  - destruct (loop_body config st record) as [[[st1 o] c]|] eqn:E; [|discriminate].
    destruct (loop_body_record _ _ _ _ _ _ E) as [R1 R2].
    destruct c.
    + destruct (scan config st1 rest) as [[st2 trace2]|] eqn:E2; [|discriminate].
      injection H as <- <-. destruct (IH _ _ _ E2 Hne) as [I1 I2].
      cbn [map foldr]. split; congruence.
    + injection H as <- <-. apply loop_body_break in E. contradiction.
Qed.

Lemma iterate_whole config records n :
  forall st st' trace,
    consistent config st ->
    iterate config n st records = Some (st', trace) ->
    erroredPartitions st' <> Config.partitions config ->
    total parsed trace = Z.of_nat n * records_parsed records /\
    total weight trace = Z.of_nat n * records_weight records.
Proof.
  induction n as [|n IH]; intros st st' trace Hc H Hne; cbn [iterate] in H.
  - injection H as <- <-. split; cbn; lia.
  - destruct (scan config st records) as [[st1 trace1]|] eqn:E1; [|discriminate].
    destruct (iterate config n st1 records) as [[st2 trace2]|] eqn:E2; [|discriminate].
    injection H as <- <-.
    pose proof (scan_consistent _ _ _ _ _ Hc E1) as Hc1.
    assert (Hne1 : erroredPartitions st1 <> Config.partitions config).
    { intros Hall. apply Hne.
      pose proof (consistent_all_errored _ _ Hc1 Hall) as Hsat.
      destruct (iterate_unbroken config
                  (fun s => partitionList s = partitionList st1 /\
                            Result.partitionCounts (result s)
                              = Result.partitionCounts (result st1) /\
                            erroredPartitions s = erroredPartitions st1)
                  (fun o => touches o = false)
                  (fun s r s' o c => loop_body_stays_saturated config st1 s r s' o c Hsat)
                  records n st1 st2 trace2) as ((_ & _ & He) & _); auto.
      congruence. }
    destruct (scan_whole _ _ _ _ _ E1 Hne1) as [S1 S2].
    destruct (IH _ _ _ Hc1 E2 Hne) as [I1 I2].
    rewrite !total_app, S1, S2, I1, I2. split; lia.
Qed.

Lemma ProcessCSV_totals_scale config records res err :
  ProcessCSV config records = Some (res, err) ->
  err <> Some "all partitions have exceeded their maximum value"%string ->
  Result.totalDocuments res =
    wrap64 (Z.max 0 (Config.iterations config) * records_parsed records) /\
  Result.totalIDs res =
    wrap64 (Z.max 0 (Config.iterations config) * records_weight records).
Proof.
  intros H Herr. unfold ProcessCSV in H.
  destruct (run config records) as [[st trace]|] eqn:E; [|discriminate].
  injection H as <- <-.
  assert (Hne : erroredPartitions st <> Config.partitions config).
  { intros Hall. apply Herr. unfold classify.
    apply Z.eqb_eq in Hall. rewrite Hall. reflexivity. }
  destruct (run_totals _ _ _ _ E) as [T1 T2].
  unfold run in E. destruct (initial config) as [st0|] eqn:E0; [|discriminate].
  destruct (iterate_whole _ _ _ _ _ _ (initial_consistent _ _ E0) E Hne) as [W1 W2].
  rewrite T1, T2, W1, W2.
  replace (Z.of_nat (Z.to_nat (Config.iterations config)))
    with (Z.max 0 (Config.iterations config)) by lia.
  split; reflexivity.
Qed.

(** Unless the run ends with the error for all partitions, no scan was cut
    short: every record of the file was read in every iteration, and the
    totals are the iterations times the parsing records, resp. times their
    weights (as [int64]). Scanning the same file twice doubles both. *)
Theorem totals_scale_with_iterations config records res err :
  ProcessCSV config records = Some (res, err) ->
  err <> Some "all partitions have exceeded their maximum value"%string ->
  Result.totalDocuments res =
    wrap64 (Z.max 0 (Config.iterations config) * records_parsed records) /\
  Result.totalIDs res =
    wrap64 (Z.max 0 (Config.iterations config) * records_weight records).
Proof. exact (ProcessCSV_totals_scale config records res err). Qed.

Lemma totals_scale_with_iterations_witness :
  Result.totalDocuments (Result.mk 6 36 [6; 0]) =
    wrap64 (Z.max 0 3 * records_parsed [("1", "2"); ("x", "5"); ("3", "10")]%string) /\
  Result.totalIDs (Result.mk 6 36 [6; 0]) =
    wrap64 (Z.max 0 3 * records_weight [("1", "2"); ("x", "5"); ("3", "10")]%string).
Proof.
  apply (totals_scale_with_iterations (Config.mk 2 9 0 3 20)
           [("1", "2"); ("x", "5"); ("3", "10")]%string (Result.mk 6 36 [6; 0])
           (Some "1 partition exceeded its maximum value"%string)).
  - vm_compute. reflexivity.
  - discriminate.
Defined.

(** * Which records are read *)

Lemma ParseUint_loop_ok maxVal s :
  forall n un,
    0 <= n <= maxVal -> maxVal < 2 ^ 64 ->
    ParseUint_loop ((2 ^ 64 - 1) / 10 + 1) maxVal s n = (un, None) ->
    all_digits s = true /\
    un = fold_left (fun n c => n * 10 + (byte_of c - 48)) (list_ascii_of_string s) n /\
    un <= maxVal.
Proof.
  unfold all_digits.
  induction s as [|c s IH]; intros n un Hn Hmax H; cbn in *.
  - injection H as <-. repeat split; lia.
  - destruct (is_digit c) eqn:Hc; [|discriminate].
    pose proof (is_digit_value c Hc) as Hd.
    change ((2 ^ 64 - 1) / 10 + 1) with 1844674407370955162 in *.
    destruct (1844674407370955162 <=? n) eqn:Hcut; [discriminate|].
    apply Z.leb_gt in Hcut.
    unfold wrapU64 in H. rewrite (Z.mod_small (n * 10)) in H by lia.
    destruct (((n * 10 + (byte_of c - 48)) mod 2 ^ 64 <? n * 10)
              || (maxVal <? (n * 10 + (byte_of c - 48)) mod 2 ^ 64)) eqn:E; [discriminate|].
    apply orb_false_iff in E as [E1 E2]. tidy_tests.
    assert (Hsmall : n * 10 + (byte_of c - 48) < 2 ^ 64).
    { destruct (Z.lt_ge_cases (n * 10 + (byte_of c - 48)) (2 ^ 64)) as [|Hge]; [assumption|].
      exfalso.
      replace (n * 10 + (byte_of c - 48))
        with (n * 10 + (byte_of c - 48) - 2 ^ 64 + 1 * 2 ^ 64) in E1 by lia.
      rewrite Z.mod_add, Z.mod_small in E1 by lia. lia. }
    rewrite Z.mod_small in * by lia.
    cbn [andb]. apply IH; [lia | assumption | exact H].
Qed.

Lemma ParseUint_loop_range maxVal s :
  forall n un,
    ParseUint_loop ((2 ^ 64 - 1) / 10 + 1) maxVal s n = (un, Some ErrRange) ->
    un = maxVal.
Proof.
  induction s as [|c s IH]; intros n un H; cbn in H; [discriminate|].
  destruct (is_digit c); [|discriminate].
  destruct (_ <=? n); [injection H as <-; reflexivity|].
  destruct (_ || _); [injection H as <-; reflexivity|].
  eapply IH. exact H.
Qed.

Lemma ParseInt_body_spec (neg : bool) (body : string) (half mx v : Z) :
  (half = 2 ^ 31 /\ mx = 2 ^ 32 - 1) \/ (half = 2 ^ 63 /\ mx = 2 ^ 64 - 1) ->
  match ParseUint_loop ((2 ^ 64 - 1) / 10 + 1) mx body 0 with
  | (_, Some ErrSyntax) => (0, Some ErrSyntax)
  | (un, _) =>
      if negb neg && (half <=? un) then (half - 1, Some ErrRange)
      else if neg && (half <? un) then (- half, Some ErrRange)
      else (if neg then wrap64 (- wrap64 un) else wrap64 un, None)
  end = (v, None) <->
  (if all_digits body
   then Some (if neg then - decimal_value body else decimal_value body)
   else None) = Some v /\ - half <= v < half.
Proof.
  intros Hw. split.
  - intros H.
    destruct (ParseUint_loop ((2 ^ 64 - 1) / 10 + 1) mx body 0) as [un [[|]|]] eqn:EU.
    + discriminate.
    + apply ParseUint_loop_range in EU. subst un.
      destruct neg; cbn [negb andb] in H.
      * destruct (half <? mx) eqn:E; [discriminate|]. tidy_tests. lia.
      * destruct (half <=? mx) eqn:E; [discriminate|]. apply Z.leb_gt in E. lia.
    + apply ParseUint_loop_ok in EU as (Hd & -> & Hle); [|lia..].
      fold (decimal_value body) in *.
      assert (H0 : 0 <= decimal_value body) by (apply (digits_grow _ 0 Hd); lia).
      rewrite Hd.
      destruct neg; cbn [negb andb] in H.
      * destruct (half <? decimal_value body) eqn:E; [discriminate|]. tidy_tests.
        injection H as <-.
        destruct (Z.eq_dec (decimal_value body) (2 ^ 63)) as [Heq | Hneq].
        -- rewrite Heq. split; [reflexivity|]. change (wrap64 (- wrap64 (2 ^ 63))) with (- 2 ^ 63). lia.
        -- rewrite (wrap64_small (decimal_value body)) by lia.
           rewrite wrap64_small by lia. split; [reflexivity | lia].
      * destruct (half <=? decimal_value body) eqn:E; [discriminate|]. apply Z.leb_gt in E.
        injection H as <-. rewrite wrap64_small by lia. split; [reflexivity | lia].
  - intros [H Hv].
    destruct (all_digits body) eqn:Hd; [|discriminate].
    assert (H0 : 0 <= decimal_value body) by (apply (digits_grow _ 0 Hd); lia).
    injection H as H.
    rewrite ParseUint_loop_digits;
      [ | assumption | lia | fold (decimal_value body); destruct neg; lia | lia ].
    fold (decimal_value body).
    destruct neg; cbn [negb andb].
    + destruct (half <? decimal_value body) eqn:E; [tidy_tests; lia|].
      destruct (Z.eq_dec (decimal_value body) (2 ^ 63)) as [Heq | Hneq].
      * rewrite Heq in *. rewrite <- H. reflexivity.
      * rewrite (wrap64_small (decimal_value body)) by lia.
        rewrite wrap64_small by lia. rewrite H. reflexivity.
    + destruct (half <=? decimal_value body) eqn:E; [apply Z.leb_le in E; lia|].
      rewrite wrap64_small by lia. rewrite H. reflexivity.
Qed.

(** [ParseInt] at 32 or 64 bits returns a value exactly on signed decimal
    text whose value fits the width, and the value is that of the text. *)
Lemma ParseInt_spec s b v :
  b = 32 \/ b = 64 ->
  ParseInt s b = (v, None) <->
  signed_decimal s = Some v /\ - 2 ^ (b - 1) <= v < 2 ^ (b - 1).
Proof.
  intros Hb. unfold ParseInt, signed_decimal.
  destruct s as [|c rest]; [split; [discriminate | intros [? _]; discriminate]|].
  cbv zeta.
  set (neg := Ascii.eqb c "-").
  set (body := if (Ascii.eqb c "+" || neg)%bool then rest else String c rest).
  clearbody neg body. unfold ParseUint.
  destruct body as [|c' body'] eqn:Ebody;
    [split; [discriminate | intros [? _]; discriminate]|].
  rewrite <- Ebody. clear Ebody c' body'.
  apply ParseInt_body_spec.
  destruct Hb as [-> | ->]; [left | right]; split; reflexivity.
Qed.

Lemma accepted_spec record k w :
  accepted record = Some (k, w) <->
  ParseInt (fst record) 32 = (k, None) /\ ParseInt (snd record) 64 = (w, None).
Proof.
  rewrite (ParseInt_spec (fst record) 32 k), (ParseInt_spec (snd record) 64 w) by auto.
  unfold accepted. split.
  - destruct (signed_decimal (fst record)) as [k'|]; [|discriminate].
    destruct (signed_decimal (snd record)) as [w'|]; [|discriminate].
    destruct (_ && _) eqn:E; [|discriminate]. intros [= -> ->].
    repeat (apply andb_true_iff in E as [E ?]). apply Z.leb_le in E. tidy_tests.
    repeat split; lia.
  - intros [[-> Hk] [-> Hw]].
    replace ((- 2 ^ 31 <=? k) && (k <? 2 ^ 31) && (- 2 ^ 63 <=? w) && (w <? 2 ^ 63))
      with true; [reflexivity|].
    symmetry. repeat (apply andb_true_iff; split);
      first [apply Z.leb_le | apply Z.ltb_lt]; lia.
Qed.

(** A record is read -- counted in the totals and routed by the hash of its
    key -- exactly when its key field is signed decimal text (an optional
    [+] or [-], at least one digit, nothing else) with a value from [-2^31] to
    [2^31 - 1] and its weight field is signed decimal text with a value from
    [-2^63] to [2^63 - 1]; the document id is then the key modulo [2^32].
    Any other record is logged and skipped, the locals untouched. *)
Theorem record_read_iff_decimal config st record st' o c :
  loop_body config st record = Some (st', o, c) ->
  match accepted record with
  | Some (k, w) => key_of o = Some (wrap32 k) /\ weight o = w /\ parsed o = 1
  | None => o = ParseError /\ st' = st /\ c = Continue
  end.
Proof.
  intros H. destruct (accepted record) as [[k w]|] eqn:Ea.
  - apply accepted_spec in Ea as [Hk Hw].
    destruct (loop_body_parsed _ _ _ _ _ _ _ _ Hk Hw H) as (Hkey & _).
    destruct (loop_body_record _ _ _ _ _ _ H) as [Hp Hwt].
    unfold parses in Hp. unfold weight_of_record in Hwt. rewrite Hk, Hw in *.
    repeat split; assumption.
  - destruct (ParseInt (fst record) 32) as [i [e|]] eqn:Hk;
      [unfold loop_body in H; rewrite Hk in H; injection H as <- <- <-; auto|].
    destruct (ParseInt (snd record) 64) as [cnt [e|]] eqn:Hw;
      [unfold loop_body in H; rewrite Hk, Hw in H; injection H as <- <- <-; auto|].
    pose proof (proj2 (accepted_spec record i cnt) (conj Hk Hw)). congruence.
Qed.

Lemma record_read_iff_decimal_witness :
  let config := Config.mk 3 10 0 1 20 in
  let st := mkLocals (replicate 3 (Partition.mk 0 10 false)) (Result.mk 0 0 [0; 0; 0]) 0 [] ∅ in
  (exists st' o c,
     loop_body config st ("+0042", "-7")%string = Some (st', o, c) /\
     key_of o = Some (wrap32 42) /\ weight o = -7 /\ parsed o = 1) /\
  (exists st' o c,
     loop_body config st ("4 2", "7")%string = Some (st', o, c) /\
     o = ParseError /\ st' = st /\ c = Continue).
Proof.
  intros config st. split.
  - eexists _, _, _. split; [vm_compute; reflexivity|].
    refine (record_read_iff_decimal config st ("+0042", "-7")%string _ _ _ _).
    vm_compute; reflexivity.
  - eexists _, _, _. split; [vm_compute; reflexivity|].
    refine (record_read_iff_decimal config st ("4 2", "7")%string _ _ _ _).
    vm_compute; reflexivity.
Defined.

Lemma digit_is_no_sign c :
  is_digit c = true -> Ascii.eqb c "+" = false /\ Ascii.eqb c "-" = false.
Proof.
  intros H. split.
  - destruct (Ascii.eqb_spec c "+") as [-> |]; [discriminate H | reflexivity].
  - destruct (Ascii.eqb_spec c "-") as [-> |]; [discriminate H | reflexivity].
Qed.

(** A key written as unsigned decimal text of value [2^31] or more -- the
    upper half of the unsigned 32-bit range included -- does not fit the 32
    bits asked of [ParseInt]: the record is logged and skipped. *)
Theorem unsigned_upper_half_is_skipped config st digits weight :
  all_digits digits = true ->
  2 ^ 31 <= decimal_value digits ->
  loop_body config st (digits, weight) = Some (st, ParseError, Continue).
Proof.
  intros Hd Hv.
  assert (Hs : signed_decimal digits = Some (decimal_value digits)).
  { unfold signed_decimal. destruct digits as [|ch rest]; [cbn in Hv; lia|].
    cbv zeta. unfold all_digits in Hd. cbn [list_ascii_of_string forallb] in Hd.
    apply andb_true_iff in Hd as [Hc Hrest].
    destruct (digit_is_no_sign ch Hc) as [-> ->]. cbn [orb].
    unfold all_digits. cbn [list_ascii_of_string forallb]. rewrite Hc, Hrest.
    reflexivity. }
  unfold loop_body. cbn [fst snd].
  destruct (ParseInt digits 32) as [i [e|]] eqn:Hk; [reflexivity|].
  apply ParseInt_spec in Hk as [Hk Hr]; [|auto]. rewrite Hs in Hk. injection Hk as <-. lia.
Qed.

Lemma unsigned_upper_half_is_skipped_witness :
  let st := mkLocals (replicate 3 (Partition.mk 0 10 false)) (Result.mk 0 0 [0; 0; 0]) 0 [] ∅ in
  loop_body (Config.mk 3 10 0 1 20) st ("4294967295", "1")%string
    = Some (st, ParseError, Continue).
Proof.
  intros st.
  apply (unsigned_upper_half_is_skipped (Config.mk 3 10 0 1 20) st "4294967295" "1").
  - reflexivity.
  - vm_compute. discriminate.
Defined.

(** * Further properties of the hash *)

Lemma eq_of_bits32 a b :
  0 <= a < 2 ^ 32 -> 0 <= b < 2 ^ 32 ->
  (forall i, 0 <= i < 32 -> Z.testbit a i = Z.testbit b i) -> a = b.
Proof.
  intros Ha Hb H. apply Z.bits_inj'. intros i Hi.
  destruct (Z.lt_ge_cases i 32) as [Hlt | Hge]; [apply H; lia|].
  rewrite (high_bits_clear a 32), (high_bits_clear b 32); auto; lia.
Qed.

Lemma rotateLeft_rotateLeft x j k :
  0 <= x < 2 ^ 32 -> 0 <= j <= 32 -> 0 <= k <= 32 ->
  rotateLeft (rotateLeft x j) k = rotateLeft x ((j + k) mod 32).
Proof.
  intros Hx Hj Hk.
  pose proof (rotateLeft_range x j Hx Hj) as Hr.
  pose proof (Z.mod_pos_bound (j + k) 32 ltac:(lia)) as Hm.
  apply eq_of_bits32; [apply rotateLeft_range; lia..|].
  intros i Hi.
  pose proof (Z.mod_pos_bound (i - k) 32 ltac:(lia)) as Hik.
  rewrite (rotateLeft_testbit (rotateLeft x j) k i) by lia.
  rewrite (rotateLeft_testbit x j) by lia.
  rewrite (rotateLeft_testbit x ((j + k) mod 32) i) by lia.
  f_equal. rewrite Zminus_mod_idemp_l, Zminus_mod_idemp_r. f_equal. lia.
Qed.

Lemma rotateLeft_0 x : 0 <= x < 2 ^ 32 -> rotateLeft x 0 = x.
Proof.
  intros Hx. apply eq_of_bits32; [apply rotateLeft_range; lia | assumption |].
  intros i Hi. rewrite rotateLeft_testbit by lia.
  f_equal. rewrite Z.sub_0_r. apply Z.mod_small. lia.
Qed.

(** Two rotations in a row are one rotation by the sum of the amounts, taken
    modulo 32. *)
Theorem rotateLeft_compose x j k :
  0 <= x < 2 ^ 32 -> 0 <= j <= 32 -> 0 <= k <= 32 ->
  rotateLeft (rotateLeft x j) k = rotateLeft x ((j + k) mod 32).
Proof. exact (rotateLeft_rotateLeft x j k). Qed.

Lemma rotateLeft_compose_witness :
  rotateLeft (rotateLeft 0x80000001 14) 25 = rotateLeft 0x80000001 ((14 + 25) mod 32).
Proof. apply rotateLeft_compose; lia. Defined.

(** A rotation is undone by the rotation by the complementary amount: no
    bit of the word is lost. *)
Theorem rotateLeft_inverse x k :
  0 <= x < 2 ^ 32 -> 0 <= k <= 32 ->
  rotateLeft (rotateLeft x k) (32 - k) = x.
Proof.
  intros Hx Hk. rewrite rotateLeft_rotateLeft by lia.
  replace (k + (32 - k)) with 32 by lia. change (32 mod 32) with 0.
  apply rotateLeft_0. exact Hx.
Qed.

Lemma rotateLeft_inverse_witness :
  rotateLeft (rotateLeft 0xdeadbeef 11) (32 - 11) = 0xdeadbeef.
Proof. apply rotateLeft_inverse; lia. Defined.

(** The amounts outside 1..31, as Go shifts them: by 0 and by 32 the word
    comes back unchanged (one of the two shifts is by the full width and gives
    0); by more than 32 both shifts run past the width -- [32 - k] wraps
    around in [uint] -- and the result is 0. *)
Theorem rotateLeft_outside_1_31 x :
  0 <= x < 2 ^ 32 ->
  rotateLeft x 0 = x /\ rotateLeft x 32 = x /\
  forall k, 32 < k < 2 ^ 64 -> rotateLeft x k = 0.
Proof.
  intros Hx. split; [apply rotateLeft_0; exact Hx|]. split.
  - apply eq_of_bits32; [apply rotateLeft_range; lia | assumption |].
    intros i Hi. rewrite rotateLeft_testbit by lia. f_equal.
    replace (i - 32) with (i + (-1) * 32) by lia.
    rewrite Z.mod_add by lia. apply Z.mod_small. lia.
  - intros k Hk. unfold rotateLeft, wrap32, wrapU64.
    rewrite Z.shiftl_mul_pow2 by lia.
    replace (2 ^ k) with (2 ^ (k - 32) * 2 ^ 32)
      by (rewrite <- Z.pow_add_r by lia; f_equal; lia).
    rewrite Z.mul_assoc, Z.mod_mul by lia.
    replace (32 - k) with (32 - k + 2 ^ 64 + (-1) * 2 ^ 64) by lia.
    rewrite Z.mod_add, Z.mod_small by lia.
    rewrite Z.shiftr_div_pow2 by lia.
    rewrite Z.div_small; [reflexivity|].
    assert (2 ^ 32 <= 2 ^ (32 - k + 2 ^ 64)) by (apply Z.pow_le_mono_r; lia).
    lia.
Qed.

Lemma rotateLeft_outside_1_31_witness :
  rotateLeft 0xdeadbeef 0 = 0xdeadbeef /\ rotateLeft 0xdeadbeef 32 = 0xdeadbeef /\
  forall k, 32 < k < 2 ^ 64 -> rotateLeft 0xdeadbeef k = 0.
Proof. apply rotateLeft_outside_1_31. lia. Defined.

(** * The test harness *)

(** ** mergeConfig *)

Lemma mergeConfig_fields d u :
  Harness.mergeConfig d u =
  Harness.mkConfig
    (if Harness.partitions u =? 0 then Harness.partitions d else Harness.partitions u)
    (if Harness.max u =? 0 then Harness.max d else Harness.max u)
    (if Harness.min u =? 0 then Harness.min d else Harness.min u)
    (match Harness.file u with None => Harness.file d | Some f => Some f end)
    (match Harness.writer u with None => Harness.writer d | Some w => Some w end)
    (if Harness.fileSize u =? 0 then Harness.fileSize d else Harness.fileSize u)
    (if Harness.iterations u =? 0 then Harness.iterations d else Harness.iterations u)
    (if Harness.outlier u =? 0 then Harness.outlier d else Harness.outlier u).
Proof.
  unfold Harness.mergeConfig. destruct d, u. cbn.
  repeat match goal with
         | |- context [if ?b then _ else _] => destruct b
         | |- context [match ?o with Some _ => _ | None => _ end] => destruct o
         end; reflexivity.
Qed.

(** [mergeConfig] overrides field by field, and the overriding composes:
    merging [b] and then [c] over [a] is merging over [a] the merge of [c]
    over [b]; the zero [Config] changes nothing, on either side. A test can
    therefore not ask for a field to be zero when the default is not. *)
Theorem mergeConfig_monoid a b c :
  Harness.mergeConfig (Harness.mergeConfig a b) c =
    Harness.mergeConfig a (Harness.mergeConfig b c) /\
  Harness.mergeConfig a Harness.zero = a /\
  Harness.mergeConfig Harness.zero a = a.
Proof.
  rewrite !mergeConfig_fields. destruct a, b, c.
  cbn [Harness.partitions Harness.max Harness.min Harness.file Harness.writer
       Harness.fileSize Harness.iterations Harness.outlier Harness.zero Z.eqb].
  split; [|split]; f_equal;
    repeat match goal with
           | |- context [if ?x =? 0 then _ else _] => destruct (Z.eqb_spec x 0)
           | |- context [match ?o with Some _ => _ | None => _ end] => destruct o
           end; congruence.
Qed.

(** ** What %d prints, ParseInt reads back *)

Lemma string_of_uint_digits d : all_digits (NilEmpty.string_of_uint d) = true.
Proof.
  unfold all_digits.
  induction d; cbn [NilEmpty.string_of_uint list_ascii_of_string forallb];
    rewrite ?IHd; reflexivity.
Qed.

Lemma value_of_uint_acc d :
  forall acc,
    fold_left (fun n c => n * 10 + (byte_of c - 48))
      (list_ascii_of_string (NilEmpty.string_of_uint d)) (Z.pos acc)
    = Z.pos (Pos.of_uint_acc d acc).
Proof.
  induction d; intros acc;
    cbn [NilEmpty.string_of_uint list_ascii_of_string fold_left Pos.of_uint_acc];
    try reflexivity;
    rewrite <- IHd; f_equal;
    match goal with |- _ + (byte_of ?c - 48) = _ =>
      let v := eval vm_compute in (byte_of c - 48) in change (byte_of c - 48) with v
    end; lia.
Qed.

Lemma value_of_uint d :
  decimal_value (NilEmpty.string_of_uint d) = Z.of_N (Pos.of_uint d).
Proof.
  unfold decimal_value.
  induction d;
    cbn [NilEmpty.string_of_uint list_ascii_of_string fold_left Pos.of_uint];
    try reflexivity;
    match goal with |- context [0 * 10 + (byte_of ?c - 48)] =>
      let v := eval vm_compute in (0 * 10 + (byte_of c - 48)) in
      change (0 * 10 + (byte_of c - 48)) with v
    end;
    first [exact IHd | apply value_of_uint_acc].
Qed.

Lemma signed_decimal_digits s :
  s <> EmptyString -> all_digits s = true -> signed_decimal s = Some (decimal_value s).
Proof.
  intros Hne Hd. unfold signed_decimal. destruct s as [|ch rest]; [congruence|].
  cbv zeta. pose proof Hd as Hd'. unfold all_digits in Hd'.
  cbn [list_ascii_of_string forallb] in Hd'.
  apply andb_true_iff in Hd' as [Hc _].
  destruct (digit_is_no_sign ch Hc) as [-> ->]. cbn [orb]. rewrite Hd. reflexivity.
Qed.

Lemma signed_decimal_minus s :
  s <> EmptyString -> all_digits s = true ->
  signed_decimal (String "-" s) = Some (- decimal_value s).
Proof.
  intros Hne Hd. unfold signed_decimal. cbn [Ascii.eqb Bool.eqb orb].
  destruct s as [|ch rest]; [congruence|]. rewrite Hd. reflexivity.
Qed.

Lemma string_of_uint_nonempty d : d <> Decimal.Nil -> NilEmpty.string_of_uint d <> EmptyString.
Proof. destruct d; cbn; congruence. Qed.

Lemma string_of_uint_nonnil d :
  d <> Decimal.Nil -> NilZero.string_of_uint d = NilEmpty.string_of_uint d.
Proof. destruct d; [congruence | reflexivity..]. Qed.

Lemma itoa_signed_decimal z : signed_decimal (itoa z) = Some z.
Proof.
  unfold itoa. destruct z as [|p|p]; [reflexivity| |];
    cbn [Z.to_int NilZero.string_of_int];
    pose proof (DecimalPos.Unsigned.to_uint_nonnil p) as Hnil;
    pose proof (DecimalPos.Unsigned.of_to p) as Hof;
    rewrite (string_of_uint_nonnil _ Hnil).
  - rewrite signed_decimal_digits;
      [ rewrite value_of_uint, Hof; reflexivity
      | apply string_of_uint_nonempty; assumption
      | apply string_of_uint_digits ].
  - rewrite signed_decimal_minus;
      [ rewrite value_of_uint, Hof; reflexivity
      | apply string_of_uint_nonempty; assumption
      | apply string_of_uint_digits ].
Qed.

(** An integer printed with [%d] is read back by [ParseInt]: at 64 bits for
    every [int64], at 32 bits for every [int32]. The files the tests write are
    read without a parse error. *)
Theorem printed_integer_parses z :
  (- 2 ^ 63 <= z < 2 ^ 63 -> ParseInt (itoa z) 64 = (z, None)) /\
  (- 2 ^ 31 <= z < 2 ^ 31 -> ParseInt (itoa z) 32 = (z, None)).
Proof.
  split; intros Hz; apply ParseInt_spec; auto;
    (split; [apply itoa_signed_decimal | lia]).
Qed.

Lemma printed_integer_parses_witness :
  ParseInt (itoa (- 2 ^ 63)) 64 = (- 2 ^ 63, None) /\
  ParseInt (itoa 2147483647) 32 = (2147483647, None).
Proof.
  split.
  - apply (proj1 (printed_integer_parses (- 2 ^ 63))). lia.
  - apply (proj2 (printed_integer_parses 2147483647)). lia.
Defined.
(** ** The files the tests generate *)

Lemma ParseInt_itoa_64 z : - 2 ^ 63 <= z < 2 ^ 63 -> ParseInt (itoa z) 64 = (z, None).
Proof.
  intros Hz. apply ParseInt_spec; [auto|]. split; [apply itoa_signed_decimal | lia].
Qed.

Lemma ParseInt_itoa_32 z : - 2 ^ 31 <= z < 2 ^ 31 -> ParseInt (itoa z) 32 = (z, None).
Proof.
  intros Hz. apply ParseInt_spec; [auto|]. split; [apply itoa_signed_decimal | lia].
Qed.

Lemma printed_records count remaining :
  - 2 ^ 63 <= count < 2 ^ 63 ->
  forall i, 0 <= i -> i + Z.of_nat remaining <= 2 ^ 31 ->
  records_parsed (Harness.documents remaining i count) = Z.of_nat remaining /\
  records_weight (Harness.documents remaining i count) = Z.of_nat remaining * count.
Proof.
  intros Hc. unfold records_parsed, records_weight, sumZ.
  induction remaining as [|remaining IH]; intros i Hi Hle; [split; reflexivity|].
  destruct (IH (i + 1)) as [IH1 IH2]; [lia | lia |].
  cbn [Harness.documents map foldr].
  unfold parses at 1, weight_of_record at 1. cbn [fst snd].
  rewrite ParseInt_itoa_32, ParseInt_itoa_64 by lia.
  rewrite IH1, IH2. cbn [Z.b2z]. split; lia.
Qed.

Lemma createTestCSV_records n count :
  0 <= n < 2 ^ 31 -> - 2 ^ 63 <= count < 2 ^ 63 ->
  records_parsed (Harness.createTestCSV n count) = n /\
  records_weight (Harness.createTestCSV n count) = n * count.
Proof.
  intros Hn Hc. unfold Harness.createTestCSV.
  destruct (printed_records count (Z.to_nat n) Hc 1) as [H1 H2]; [lia | lia |].
  rewrite Z2Nat.id in * by lia. split; assumption.
Qed.

(** On a file written by [createTestCSV] -- fewer than [2^31] documents,
    one count -- every record parses: unless the run ends with the error for
    all partitions, [totalDocuments] is the number of documents and [totalIDs]
    that number times the count, once per iteration. *)
Theorem generated_file_totals config n count res err :
  0 <= n < 2 ^ 31 ->
  - 2 ^ 63 <= count < 2 ^ 63 ->
  ProcessCSV config (Harness.createTestCSV n count) = Some (res, err) ->
  err <> Some "all partitions have exceeded their maximum value"%string ->
  Result.totalDocuments res = wrap64 (Z.max 0 (Config.iterations config) * n) /\
  Result.totalIDs res = wrap64 (Z.max 0 (Config.iterations config) * (n * count)).
Proof.
  intros Hn Hc H Herr.
  destruct (ProcessCSV_totals_scale _ _ _ _ H Herr) as [T1 T2].
  destruct (createTestCSV_records n count Hn Hc) as [R1 R2].
  rewrite T1, T2, R1, R2. split; reflexivity.
Qed.

Lemma generated_file_totals_witness :
  exists res err,
    ProcessCSV
      (Harness.core (Harness.mergeConfig (Harness.defaultConfig 0 0 100)
                       (Harness.mkConfig 3 0 0 None None 0 2 0)))
      (Harness.createTestCSV 20 7) = Some (res, err) /\
    Result.totalDocuments res = wrap64 (Z.max 0 2 * 20) /\
    Result.totalIDs res = wrap64 (Z.max 0 2 * (20 * 7)).
Proof.
  eexists _, _. split; [vm_compute; reflexivity|].
  eapply (generated_file_totals
            (Harness.core (Harness.mergeConfig (Harness.defaultConfig 0 0 100)
                             (Harness.mkConfig 3 0 0 None None 0 2 0))) 20 7);
    [lia | lia | vm_compute; reflexivity | discriminate].
Defined.

(** [TestAllPartitionsErrored]: ten documents of count 11, three partitions
    of ceiling 10. The first three documents fall into three different
    partitions; the scan is left at the third. *)
Example test_all_partitions_errored :
  ProcessCSV
    (Harness.core (Harness.mergeConfig (Harness.defaultConfig 0 0 100)
                     (Harness.mkConfig 3 10 0 None None 0 0 0)))
    (Harness.createTestCSV 10 11) =
  Some (Result.mk 3 33 [0; 0; 0],
        Some "all partitions have exceeded their maximum value"%string).
Proof. vm_compute. reflexivity. Qed.

(** ** The progress of an admitted record *)

Lemma loop_body_increment config st record st' o c :
  currents_in_range st ->
  loop_body config st record = Some (st', o, c) ->
  currents_in_range st' /\ increment_is_weight o.
Proof.
  unfold currents_in_range. intros Hr H.
  loop_body_cases H; cbn [partitionList increment_is_weight]; try (split; [assumption | exact I]).
  - split; [|exact I]. intros j p Hj. at_index Hj; eauto.
    injection Hj as <-. cbn [Partition.current]. eauto.
  - split; [|exact I]. intros j p Hj. at_index Hj; eauto.
    injection Hj as <-. cbn [Partition.current]. eauto.
  - split.
    + intros j p Hj. at_index Hj; eauto.
      injection Hj as <-. cbn [Partition.current]. apply wrap64_range.
    + match goal with E : partitionList st !! _ = Some ?t |- _ =>
        pose proof (Hr _ _ E) as Ht
      end.
      match goal with E : ParseInt _ 64 = (?w, None) |- _ =>
        pose proof (ParseInt_int64 _ _ E) as Hw
      end.
      symmetry. apply wrap64_of_eq64; [|exact Hw].
      rewrite eq64_wrap64. apply eq64_of_eq. lia.
Qed.

(** When the floor is an [int64], the amount reported to the progress
    tracker of a partition for an admitted record is the weight of that
    record, also when the sum has wrapped around. *)
Theorem increment_is_the_weight config records st trace :
  - 2 ^ 63 <= Config.min config < 2 ^ 63 ->
  run config records = Some (st, trace) ->
  Forall increment_is_weight trace.
Proof.
  intros Hmin H. unfold run in H.
  destruct (initial config) as [st0|] eqn:E0; [|discriminate].
  assert (H0 : currents_in_range st0).
  { unfold initial in E0. destruct (Config.partitions config <? 0); [discriminate|].
    injection E0 as <-. intros i p Hi. cbn [partitionList] in Hi.
    apply lookup_replicate in Hi as [-> _]. exact Hmin. }
  exact (proj2 (iterate_along config currents_in_range increment_is_weight
                  (loop_body_increment config) records _ _ _ _ H0 H)).
Qed.

Lemma increment_is_the_weight_witness :
  exists st trace,
    run (Config.mk 2 (2 ^ 63 - 1) 5 1 (2 ^ 63 - 1))
      [("1", "9223372036854775807"); ("3", "-8"); ("1", "4")]%string = Some (st, trace) /\
    Forall increment_is_weight trace.
Proof.
  eexists _, _. split; [vm_compute; reflexivity|].
  eapply (increment_is_the_weight (Config.mk 2 (2 ^ 63 - 1) 5 1 (2 ^ 63 - 1))
            [("1", "9223372036854775807"); ("3", "-8"); ("1", "4")]%string);
    [cbn; lia | vm_compute; reflexivity].
Defined.
